(** * CodeHawk-Binary: relational analysis, AST lowering and simulation steps

    A shallow embedding of the parts of the Python sources that compare two
    binaries (chb/relational), order the instructions of a basic block
    (chb/app/BasicBlock.py), lower stack and register variables to AST
    lvalues (chb/invariants/XXprUtil.py) and simulate single opcodes
    (chb/mips/opcodes, chb/x86/opcodes).

    Python values are modelled as follows:
    - [str] is [string], each character standing for the code point below
      256 of its number; [sorted] on strings is the code-point
      lexicographic order, [String.leb];
    - a [dict] is an association list in insertion order, since several
      functions depend on the iteration order of a dict (and on the loop
      variable that survives a [for] loop);
    - a [set] is a [gset];
    - a raised exception is the [Raise] case of [result]. *)

From Stdlib Require Import ZArith NArith Bool Ascii.
From Stdlib Require Import Hexadecimal HexadecimalString HexadecimalPos.
From Stdlib Require Import OrderedTypeEx.
From stdpp Require Import base option list sets gmap strings.

Local Open Scope string_scope.
Local Open Scope Z_scope.

(** ** Python exceptions and the result monad *)

Module Py.

Inductive exn : Type :=
| ValueError (msg : string)
| KeyError (key : string)
| IndexError (msg : string)
| UnboundLocalError (name : string)
| TypeError (msg : string)
| AttributeError (msg : string)
| CHBError (msg : string)
| CHBSymbolicExpression (iaddr dstop expr : string)
| CHBSimError (iaddr msg : string).

Inductive result (A : Type) : Type :=
| Ok (a : A)
| Raise (e : exn).

Arguments Ok {A} a.
Arguments Raise {A} e.

#[export] Instance result_ret : MRet result := fun _ a => Ok a.

#[export] Instance result_bind : MBind result := fun _ _ f m =>
  match m with
  | Ok a => f a
  | Raise e => Raise e
  end.

#[export] Instance result_fmap : FMap result := fun _ _ f m =>
  match m with
  | Ok a => Ok (f a)
  | Raise e => Raise e
  end.

Definition is_ok {A} (m : result A) : bool :=
  match m with Ok _ => true | Raise _ => false end.

(** [mapM] in list order: the first exception wins, as in a comprehension. *)
Fixpoint traverse {A B} (f : A → result B) (l : list A) : result (list B) :=
  match l with
  | [] => Ok []
  | x :: l' => y ← f x; ys ← traverse f l'; Ok (y :: ys)
  end.

(** *** Strings *)

Definition str_eqb (s t : string) : bool := bool_decide (s = t).

(** [sub in s]: substring test. *)
Fixpoint str_in (sub s : string) : bool :=
  String.prefix sub s ||
  match s with
  | EmptyString => false
  | String _ s' => str_in sub s'
  end.

(** [s.startswith(p)] *)
Definition startswith (s p : string) : bool := String.prefix p s.

(** *** [sorted] on a list of strings (insertion sort; the order on [str] is
    total, so every sorting algorithm returns the same list). *)

Fixpoint insert_sorted (x : string) (l : list string) : list string :=
  match l with
  | [] => [x]
  | y :: l' => if String.leb x y then x :: l else y :: insert_sorted x l'
  end.

Definition sorted (l : list string) : list string :=
  foldr insert_sorted [] l.

(** [l[-1]] *)
Definition last_item {A} (l : list A) : result A :=
  match last l with
  | Some x => Ok x
  | None => Raise (IndexError "list index out of range")
  end.

(** *** Dicts with string keys, in insertion order *)

Definition dict (V : Type) : Type := list (string * V).

Definition keys {V} (d : dict V) : list string := d.*1.
Definition values {V} (d : dict V) : list V := d.*2.

Fixpoint get {V} (d : dict V) (k : string) : option V :=
  match d with
  | [] => None
  | (k', v) :: d' => if str_eqb k k' then Some v else get d' k
  end.

(** [k in d] *)
Definition mem {V} (k : string) (d : dict V) : bool :=
  match get d k with Some _ => true | None => false end.

(** [d[k]] *)
Definition getitem {V} (d : dict V) (k : string) : result V :=
  match get d k with
  | Some v => Ok v
  | None => Raise (KeyError k)
  end.

(** [d[k] = v]: an existing key keeps its position. *)
Fixpoint setitem {V} (d : dict V) (k : string) (v : V) : dict V :=
  match d with
  | [] => [(k, v)]
  | (k', v') :: d' =>
      if str_eqb k k' then (k, v) :: d' else (k', v') :: setitem d' k v
  end.

(** [x in l] for a list of strings *)
Definition str_elem (x : string) (l : list string) : bool :=
  bool_decide (x ∈ l).

End Py.

Export Py.

(** ** Hexadecimal addresses: [hex] and [int(_, 16)] *)

Module Hex.

(** Value of a hexadecimal digit, in either case, from its character code:
    [0-9] are 48..57, [A-F] are 65..70, [a-f] are 97..102. *)
Definition digit (c : ascii) : option N :=
  let n := N_of_ascii c in
  if (48 <=? n)%N && (n <=? 57)%N then Some (n - 48)%N
  else if (97 <=? n)%N && (n <=? 102)%N then Some (n - 87)%N
  else if (65 <=? n)%N && (n <=? 70)%N then Some (n - 55)%N
  else None.

(** The value of a plain string of digits, most significant first. *)
Fixpoint digits_acc (s : string) (acc : N) : option N :=
  match s with
  | EmptyString => Some acc
  | String c s' =>
      match digit c with
      | Some d => digits_acc s' (16 * acc + d)%N
      | None => None
      end
  end.

(** The characters [int] skips around a number: tab to carriage return and
    the space, and, among the code points below 256 that a character of
    this embedding stands for, the next-line and no-break space
    characters. *)
Definition is_space (c : ascii) : bool :=
  let n := N_of_ascii c in
  ((9 <=? n)%N && (n <=? 13)%N) || (n =? 32)%N || (n =? 133)%N
  || (n =? 160)%N.

Fixpoint skip_spaces (s : string) : string :=
  match s with
  | EmptyString => EmptyString
  | String c s' => if is_space c then skip_spaces s' else s
  end.

(** The sign, if any. *)
Definition strip_sign (s : string) : bool * string :=
  match s with
  | String c r =>
      if Ascii.eqb c "-" then (true, r)
      else if Ascii.eqb c "+" then (false, r)
      else (false, s)
  | EmptyString => (false, s)
  end.

(** The optional [0x] / [0X] prefix accepted with base 16, and the one
    underscore allowed after it. *)
Definition strip_0x (s : string) : string :=
  match s with
  | String c0 (String c1 r) =>
      if Ascii.eqb c0 "0" && (Ascii.eqb c1 "x" || Ascii.eqb c1 "X") then
        match r with
        | String c2 r' => if Ascii.eqb c2 "_" then r' else r
        | EmptyString => r
        end
      else s
  | _ => s
  end.

(** The digits, with single underscores between them: the value read and
    the text after it. [prev] tells that the last character was an
    underscore, [seen] that a digit was read. *)
Fixpoint scan (s : string) (acc : N) (prev seen : bool)
  : option (N * string) :=
  let stop := if prev || negb seen then None else Some (acc, s) in
  match s with
  | EmptyString => stop
  | String c s' =>
      if Ascii.eqb c "_" then
        if prev then None else scan s' acc true seen
      else
        match digit c with
        | Some d => scan s' (16 * acc + d)%N false true
        | None => stop
        end
  end.

(** The number [int(s, 16)] reads, if any: spaces, sign, prefix, digits,
    spaces. *)
Definition parse (s : string) : option Z :=
  let '(negative, s) := strip_sign (skip_spaces s) in
  let s := strip_0x s in
  match s with
  | String c _ =>
      if Ascii.eqb c "_" then None
      else
        match scan s 0 false false with
        | Some (n, rest) =>
            match skip_spaces rest with
            | EmptyString =>
                Some (if negative then - Z.of_N n else Z.of_N n)
            | _ => None
            end
        | None => None
        end
  | EmptyString => None
  end.

(** [int(s, 16)] *)
Definition int16 (s : string) : result Z :=
  match parse s with
  | Some z => Ok z
  | None =>
      Raise (ValueError ("invalid literal for int() with base 16: " ++ s))
  end.

(** [hex(z)]: lower case, no leading zeros, sign before the prefix. *)
Definition hex (z : Z) : string :=
  match z with
  | Z0 => "0x0"
  | Zpos p => "0x" ++ NilEmpty.string_of_uint (Pos.to_hex_uint p)
  | Zneg p => "-0x" ++ NilEmpty.string_of_uint (Pos.to_hex_uint p)
  end.

(** An address string in the form [hex] prints. *)
Definition canonical (s : string) : Prop := ∃ z, s = hex z.

Definition canonicalb (s : string) : bool :=
  match parse s with
  | Some z => str_eqb (hex z) s
  | None => false
  end.

End Hex.

Export Hex.

(** ** External collaborators *)

(** [hashlib.md5(s.encode("utf-8")).hexdigest()]: the digest function of the
    Python standard library, kept abstract. *)
Class Hashlib : Type := md5_hexdigest : string → string.

(** ** chb/app: instructions, basic blocks, functions, applications *)

Module Instruction.

(** The fields of [chb.app.Instruction] that the relational analysis reads.
    [bytestring] is the hexadecimal text of the encoding, two characters
    per byte. *)
Record t : Type := mk {
  iaddr : string;
  bytestring : string;
  annotation : string;
  string_pointer_loaded : option (string * string);
  is_return_instruction : bool
}.

(** The two-character byte groups of an encoding; a trailing single
    character forms a group of its own. *)
Fixpoint byte_groups (s : string) : list string :=
  match s with
  | EmptyString => []
  | String a EmptyString => [String a EmptyString]
  | String a (String b r) => String a (String b EmptyString) :: byte_groups r
  end.

(** ["".join(gs)] *)
Definition join (gs : list string) : string := foldr String.append "" gs.

(** The encoding with its bytes in reverse order. *)
Definition byte_reverse (s : string) : string :=
  join (reverse (byte_groups s)).

(** Modelled from the spec: [Instruction.rev_bytestring] is not part of these
    sources; it is "the byte-reversed encoding" of the instruction, the byte
    groups of [bytestring] in reverse order. *)
Definition rev_bytestring (i : t) : string := byte_reverse (bytestring i).

Section WithHashlib.
Context `{Hashlib}.

(** Modelled from the spec: [Instruction.md5] is not part of these sources;
    it is the content hash of the instruction, taken over its encoding as
    [BasicBlock.md5] does for each instruction. *)
Definition md5 (i : t) : string := md5_hexdigest (bytestring i).

(** Modelled from the spec: [Instruction.rev_md5] is not part of these
    sources; it is the hash "computed over its byte-reversed encoding". *)
Definition rev_md5 (i : t) : string := md5_hexdigest (rev_bytestring i).

End WithHashlib.

End Instruction.

Module BasicBlock.

Record t : Type := mk {
  baddr : string;
  instructions : dict Instruction.t
}.

(** [s.split("_")[-1]]: the text after the last underscore. *)
Fixpoint last_segment (s : string) : string :=
  match s with
  | EmptyString => EmptyString
  | String c s' =>
      if str_in "_" s' then last_segment s'
      else if Ascii.eqb c "_" then s'
      else s
  end.

Definition real_baddr (self : t) : string :=
  let _baddr := baddr self in
  if startswith _baddr "F" then last_segment _baddr else _baddr.

Definition lastaddr (self : t) : result string :=
  last_item (sorted (keys (instructions self))).

Definition real_lastaddr (self : t) : result string :=
  _addr ← lastaddr self;
  if startswith _addr "F" then Ok (last_segment _addr) else Ok _addr.

Definition last_instruction (self : t) : result Instruction.t :=
  lastaddr ← last_item (sorted (keys (instructions self)));
  getitem (instructions self) lastaddr.

Definition has_return (self : t) : result bool :=
  Instruction.is_return_instruction <$> last_instruction self.

Definition has_instruction (self : t) (iaddr : string) : bool :=
  mem iaddr (instructions self).

Definition instruction (self : t) (iaddr : string) : result Instruction.t :=
  match get (instructions self) iaddr with
  | Some i => Ok i
  | None => Raise (CHBError ("Instruction " ++ iaddr ++ " not found"))
  end.

Section WithHashlib.
Context `{Hashlib}.

(** Successive [m.update] calls hash the concatenation of their arguments. *)
Definition md5 (self : t) : string :=
  md5_hexdigest
    (Instruction.join (Instruction.bytestring <$> values (instructions self))).

Definition rev_md5 (self : t) : string :=
  md5_hexdigest
    (Instruction.join
       (Instruction.rev_bytestring <$> values (instructions self))).

End WithHashlib.

End BasicBlock.

Module Cfg.

Record t : Type := mk {
  edges_as_set : gset (string * string)
}.

End Cfg.

Module Function.

(** The fields of [chb.app.Function] read by the relational analysis; [md5]
    and [rev_md5] are the function's content hash and the hash of its
    byte-reversed encoding. *)
Record t : Type := mk {
  faddr : string;
  blocks : dict BasicBlock.t;
  cfg : Cfg.t;
  md5 : string;
  rev_md5 : string
}.

End Function.

Module AppAccess.

(** The fields of [chb.app.AppAccess] read by the relational analysis;
    [functions] is the table behind [app.function(faddr)]. *)
Record t : Type := mk {
  is_big_endian : bool;
  appfunction_addrs : list string;
  function_md5s : dict string;
  functions : dict Function.t
}.

Definition function (app : t) (faddr : string) : result Function.t :=
  match get (functions app) faddr with
  | Some f => Ok f
  | None => Raise (CHBError ("Unable to find function " ++ faddr))
  end.

End AppAccess.

(** ** chb/relational/InstructionRelationalAnalysis.py *)

Module InstructionRelationalAnalysis.

Record t : Type := __init__ {
  app1 : AppAccess.t;
  _instr1 : Instruction.t;
  app2 : AppAccess.t;
  _instr2 : option Instruction.t
}.

Definition instr1 (self : t) : Instruction.t := _instr1 self.

Definition is_mapped (self : t) : bool :=
  match _instr2 self with Some _ => true | None => false end.

Definition instr2 (self : t) : result Instruction.t :=
  match _instr2 self with
  | Some i => Ok i
  | None =>
      Raise (CHBError ("No corresponding instruction found for "
                       ++ Instruction.iaddr (instr1 self)))
  end.

Definition same_endianness (self : t) : bool :=
  Bool.eqb (AppAccess.is_big_endian (app1 self))
           (AppAccess.is_big_endian (app2 self)).

Definition same_address (self : t) : result bool :=
  if is_mapped self then
    i2 ← instr2 self;
    Ok (str_eqb (Instruction.iaddr (instr1 self)) (Instruction.iaddr i2))
  else Ok false.

Section WithHashlib.
Context `{Hashlib}.

Definition is_md5_equal (self : t) : result bool :=
  if is_mapped self then
    if same_endianness self then
      i2 ← instr2 self;
      Ok (str_eqb (Instruction.md5 (instr1 self)) (Instruction.md5 i2))
    else
      i2 ← instr2 self;
      Ok (str_eqb (Instruction.md5 (instr1 self)) (Instruction.rev_md5 i2))
  else Ok false.

Definition has_different_annotation (self : t) : result bool :=
  if is_mapped self then
    i2 ← instr2 self;
    Ok (negb (str_eqb (Instruction.annotation (instr1 self))
                      (Instruction.annotation i2)))
  else Ok true.

Definition changes (self : t) : result (list string) :=
  let result0 : list string := [] in
  sa ← same_address self;
  let result1 := if negb sa then (result0 ++ ["address"])%list else result0 in
  me ← is_md5_equal self;
  let result2 := if negb me then (result1 ++ ["bytes"])%list else result1 in
  da ← has_different_annotation self;
  let result3 := if (da : bool) then (result2 ++ ["semantics"])%list else result2 in
  Ok result3.

Definition is_changed (self : t) : result bool :=
  c ← changes self; Ok (bool_decide (0 < length c)%nat).

End WithHashlib.

Definition loads_same_string (self : t) : result bool :=
  if is_mapped self then
    match Instruction.string_pointer_loaded (instr1 self) with
    | Some s1 =>
        i2 ← instr2 self;
        match Instruction.string_pointer_loaded i2 with
        | Some s2 => Ok (str_eqb s1.1 s2.1 && str_eqb s1.2 s2.2)
        | None => Ok false
        end
    | None => Ok false
    end
  else Ok false.

Definition calls_same_function_with_same_args (self : t) : bool := false.

Definition is_semantically_equal (self : t) : result bool :=
  l ← loads_same_string self;
  Ok (l || calls_same_function_with_same_args self).

(** The [for ... else] loop of [calls_function]. *)
Fixpoint calls_function_loop (annotation : string) (callees : list string)
  : bool :=
  match callees with
  | [] => false
  | c :: callees' =>
      if str_in c annotation && str_in "call" annotation then true
      else calls_function_loop annotation callees'
  end.

Definition calls_function (self : t) (callees : list string) : bool :=
  let annotation := Instruction.annotation (instr1 self) in
  if bool_decide (length callees = 0%nat) then true
  else calls_function_loop annotation callees.

End InstructionRelationalAnalysis.

(** ** chb/relational/FunctionRelationalAnalysis.py *)

Module FunctionRelationalAnalysis.

(** The analysis object; of its memo fields only [_blockmapping] decides a
    result ([_cfg1], [_edges1] and the like store the value they are read
    from). *)
Record t : Type := mk {
  app1 : AppAccess.t;
  fn1 : Function.t;
  app2 : AppAccess.t;
  fn2 : Function.t;
  _blockmapping : dict string
}.

Definition __init__ (app1 : AppAccess.t) (fn1 : Function.t)
    (app2 : AppAccess.t) (fn2 : Function.t) : t :=
  mk app1 fn1 app2 fn2 [].

Definition faddr1 (self : t) : string := Function.faddr (fn1 self).
Definition faddr2 (self : t) : string := Function.faddr (fn2 self).

Definition offset (self : t) : result Z :=
  a2 ← int16 (faddr2 self);
  a1 ← int16 (faddr1 self);
  Ok (a2 - a1).

Definition same_endianness (self : t) : bool :=
  Bool.eqb (AppAccess.is_big_endian (app1 self))
           (AppAccess.is_big_endian (app2 self)).

Definition address2_align (self : t) (addr2 : string) : result string :=
  a ← int16 addr2;
  o ← offset self;
  Ok (hex (a - o)).

Definition edge2_align (self : t) (e2 : string * string)
  : result (string * string) :=
  s ← address2_align self e2.1;
  d ← address2_align self e2.2;
  Ok (s, d).

Definition basic_blocks1 (self : t) : dict BasicBlock.t :=
  Function.blocks (fn1 self).
Definition basic_blocks2 (self : t) : dict BasicBlock.t :=
  Function.blocks (fn2 self).

Definition edges1 (self : t) : gset (string * string) :=
  Cfg.edges_as_set (Function.cfg (fn1 self)).
Definition edges2 (self : t) : gset (string * string) :=
  Cfg.edges_as_set (Function.cfg (fn2 self)).

Definition is_md5_equal (self : t) : bool :=
  if same_endianness self then
    str_eqb (Function.md5 (fn1 self)) (Function.md5 (fn2 self))
  else
    str_eqb (Function.md5 (fn1 self)) (Function.rev_md5 (fn2 self)).

Definition is_structurally_equivalent (self : t) : result bool :=
  if bool_decide (length (basic_blocks1 self) = length (basic_blocks2 self))
     && bool_decide (size (edges1 self) = size (edges2 self))
  then
    let bbaddrs1 := keys (basic_blocks1 self) in
    bbaddrs2 ← traverse (address2_align self) (keys (basic_blocks2 self));
    let bdiff : gset string := list_to_set bbaddrs2 ∖ list_to_set bbaddrs1 in
    if bool_decide (size bdiff = 0%nat) then
      aligned ← traverse (edge2_align self) (elements (edges2 self));
      let ediff : gset (string * string) :=
        edges1 self ∖ list_to_set aligned in
      Ok (bool_decide (size ediff = 0%nat))
    else Ok false
  else Ok false.

(** The loop of [block_mapping] over the keys of [basic_blocks1]. *)
Fixpoint block_mapping_loop (self : t) (bs : list string) (m : dict string)
  : result (dict string) :=
  match bs with
  | [] => Ok m
  | b1 :: bs' =>
      a ← int16 b1;
      o ← offset self;
      block_mapping_loop self bs' (setitem m b1 (hex (a + o)))
  end.

(** The property returns the mapping and leaves it in the memo field. *)
Definition block_mapping (self : t) : result (dict string * t) :=
  if bool_decide (length (_blockmapping self) = 0%nat) then
    se ← is_structurally_equivalent self;
    if (se : bool) then
      m ← block_mapping_loop self (keys (basic_blocks1 self))
                             (_blockmapping self);
      Ok (m, mk (app1 self) (fn1 self) (app2 self) (fn2 self) m)
    else Ok (_blockmapping self, self)
  else Ok (_blockmapping self, self).

End FunctionRelationalAnalysis.

(** ** chb/relational/RelationalAnalysis.py *)

(** [CallgraphMatcher(app1, faddrs1, cg1, app2, faddrs2, cg2,
    usermapping).function_mapping]: the call graph matcher is outside these
    sources; the call graphs are those of the two applications. *)
Class CallgraphMatcher : Type :=
  callgraph_function_mapping :
    AppAccess.t → list string → AppAccess.t → list string → dict string
    → dict string.

Module RelationalAnalysis.

Record t : Type := mk {
  app1 : AppAccess.t;
  app2 : AppAccess.t;
  _faddrs1 : list string;
  _faddrs2 : list string;
  _usermapping : dict string;
  _callees : list string;
  _patchevents : dict string;
  _functionmapping : dict string;
  _functionanalyses : dict FunctionRelationalAnalysis.t
}.

(** A Python list is false when it is empty. *)
Definition truthy {A} (l : list A) : bool :=
  match l with [] => false | _ => true end.

Definition __init__ (app1 app2 : AppAccess.t) (faddrs1 faddrs2 : list string)
    (usermapping : dict string) (callees : list string)
    (patchevents : dict string) : t :=
  {| app1 := app1;
     app2 := app2;
     _faddrs1 := if truthy faddrs1 then sorted faddrs1
                 else sorted (AppAccess.appfunction_addrs app1);
     _faddrs2 := if truthy faddrs2 then sorted faddrs2
                 else sorted (AppAccess.appfunction_addrs app2);
     _usermapping := usermapping;
     _callees := callees;
     _patchevents := patchevents;
     _functionmapping := [];
     _functionanalyses := [] |}.

Definition faddrs1 (self : t) : list string := _faddrs1 self.
Definition faddrs2 (self : t) : list string := _faddrs2 self.
Definition md5s1 (self : t) : dict string :=
  AppAccess.function_md5s (app1 self).
Definition md5s2 (self : t) : dict string :=
  AppAccess.function_md5s (app2 self).
Definition fncount1 (self : t) : nat := length (_faddrs1 self).
Definition fncount2 (self : t) : nat := length (_faddrs2 self).
Definition usermapping (self : t) : dict string := _usermapping self.
Definition callees (self : t) : list string := _callees self.

Definition set_functionmapping (self : t) (m : dict string) : t :=
  {| app1 := app1 self; app2 := app2 self;
     _faddrs1 := _faddrs1 self; _faddrs2 := _faddrs2 self;
     _usermapping := _usermapping self; _callees := _callees self;
     _patchevents := _patchevents self;
     _functionmapping := m;
     _functionanalyses := _functionanalyses self |}.

Definition set_functionanalyses (self : t)
    (fas : dict FunctionRelationalAnalysis.t) : t :=
  {| app1 := app1 self; app2 := app2 self;
     _faddrs1 := _faddrs1 self; _faddrs2 := _faddrs2 self;
     _usermapping := _usermapping self; _callees := _callees self;
     _patchevents := _patchevents self;
     _functionmapping := _functionmapping self;
     _functionanalyses := fas |}.

(** [sorted(set(l1) - set(l2))] *)
Definition sorted_difference (l1 l2 : list string) : list string :=
  sorted (elements (list_to_set l1 ∖ list_to_set l2 : gset string)).

(** The first loop of the equal-count branch: [result[faddr1] = faddr2] over
    [zip(diff1, diff2)]. *)
Fixpoint pair_differences (ps : list (string * string)) (result : dict string)
  : dict string :=
  match ps with
  | [] => result
  | (faddr1, faddr2) :: ps' => pair_differences ps' (setitem result faddr1 faddr2)
  end.

(** The second loop: every remaining address is mapped to itself. *)
Fixpoint map_remaining (fs : list string) (result : dict string)
  : dict string :=
  match fs with
  | [] => result
  | faddr1 :: fs' =>
      if negb (mem faddr1 result)
      then map_remaining fs' (setitem result faddr1 faddr1)
      else map_remaining fs' result
  end.

Section WithCallgraphMatcher.
Context `{CallgraphMatcher}.

(** The property returns the mapping and leaves it in [_functionmapping]. *)
Definition function_mapping (self : t) : dict string * t :=
  if bool_decide (0 < length (_functionmapping self))%nat then
    (_functionmapping self, self)
  else if bool_decide (fncount1 self = fncount2 self) then
    let result : dict string := [] in
    let diff1 := sorted_difference (faddrs1 self) (faddrs2 self) in
    let diff2 := sorted_difference (faddrs2 self) (faddrs1 self) in
    let result := pair_differences (zip diff1 diff2) result in
    let result := map_remaining (faddrs1 self) result in
    (result, set_functionmapping self result)
  else
    let m := callgraph_function_mapping
               (app1 self) (faddrs1 self) (app2 self) (faddrs2 self)
               (usermapping self) in
    (m, set_functionmapping self m).

Definition functions_mapped (self : t) : list string * t :=
  let '(fm, self) := function_mapping self in (sorted (keys fm), self).

(** The loop of [function_analyses] over [faddrs1]. The call of line 161
    passes five arguments, [self.patchevents] last, to
    [FunctionRelationalAnalysis.__init__], which takes four: once both
    functions are found the call raises [TypeError], and no analysis is ever
    stored. *)
Fixpoint function_analyses_loop (fs : list string) (self : t) : result t :=
  match fs with
  | [] => Ok self
  | faddr1 :: fs' =>
      let '(fm, self) := function_mapping self in
      if mem faddr1 fm then
        let '(fm, self) := function_mapping self in
        faddr2 ← getitem fm faddr1;
        fn1 ← AppAccess.function (app1 self) faddr1;
        fn2 ← AppAccess.function (app2 self) faddr2;
        Raise (TypeError
                 ("FunctionRelationalAnalysis.__init__() takes 5 positional "
                  ++ "arguments but 6 were given"))
      else function_analyses_loop fs' self
  end.

Definition function_analyses (self : t)
  : result (dict FunctionRelationalAnalysis.t * t) :=
  if bool_decide (length (_functionanalyses self) = 0%nat) then
    self ← function_analyses_loop (faddrs1 self) self;
    Ok (_functionanalyses self, self)
  else Ok (_functionanalyses self, self).

(** A warning of [chklogger]: the three arguments of the format string. *)
Definition warning : Type := string * string * string.

(** The first loop of [functions_changed]. Its test reads [fra.moved]
    first, and the class defines no [moved]: with an analysis to visit the
    loop raises [AttributeError] in its first round. Without one it leaves
    [result] as it is and its variable [faddr] unbound. *)
Definition analysed_changes
    (items : list (string * FunctionRelationalAnalysis.t))
    (result : list string) (faddr : option string)
  : Py.result (list string * option string) :=
  match items with
  | [] => Ok (result, faddr)
  | (faddr', fra) :: _ =>
      Raise (AttributeError
               ("'FunctionRelationalAnalysis' object has no attribute "
                ++ "'moved'"))
  end.

(** The second loop, over [md5s1.items()]; it reads the variable [faddr] of
    the first loop next to its own [faddr1]. *)
Fixpoint unanalysed_changes (md5s2 : dict string) (faddr : option string)
    (items : list (string * string))
    (result : list string) (log : list warning)
  : Py.result (list string * list warning) :=
  match items with
  | [] => Ok (result, log)
  | (faddr1, md51) :: items' =>
      match faddr with
      | None => Raise (UnboundLocalError "faddr")
      | Some faddr_ =>
          if mem faddr_ md5s2 then
            md52 ← getitem md5s2 faddr1;
            if str_eqb md51 md52 || str_elem faddr_ result then
              unanalysed_changes md5s2 faddr items' result log
            else
              logged ← getitem md5s2 faddr_;
              unanalysed_changes md5s2 faddr items'
                (result ++ [faddr1])%list
                (log ++ [(faddr1, md51, logged)])%list
          else unanalysed_changes md5s2 faddr items' result log
      end
  end.

Definition functions_changed (self : t)
  : result (list string * list warning * t) :=
  let result : list string := [] in
  '(fas, self) ← function_analyses self;
  '(result, faddr) ← analysed_changes fas result None;
  '(result, log) ←
    unanalysed_changes (md5s2 self) faddr (md5s1 self) result [];
  Ok (result, log, self).

Definition function_analysis (self : t) (faddr : string)
  : result (FunctionRelationalAnalysis.t * t) :=
  '(fas, self) ← function_analyses self;
  if mem faddr fas then
    '(fas, self) ← function_analyses self;
    fra ← getitem fas faddr;
    Ok (fra, self)
  else Raise (CHBError "Address not found in function relational analyses").

(** The loop of [functions_added] over [sorted(self.faddrs2)]. *)
Fixpoint functions_added_loop (fs : list string) (self : t)
    (result : list string) : list string * t :=
  match fs with
  | [] => (result, self)
  | faddr2 :: fs' =>
      let '(fm, self) := function_mapping self in
      if negb (str_elem faddr2 (values fm))
      then functions_added_loop fs' self (result ++ [faddr2])%list
      else functions_added_loop fs' self result
  end.

Definition functions_added (self : t) : list string * t :=
  functions_added_loop (sorted (faddrs2 self)) self [].

(** The loop of [functions_removed] over [sorted(self.functions_changed())]. *)
Fixpoint functions_removed_loop (fs : list string) (self : t)
    (result : list string) : list string * t :=
  match fs with
  | [] => (result, self)
  | faddr :: fs' =>
      let '(fm, self) := function_mapping self in
      if negb (mem faddr fm)
      then functions_removed_loop fs' self (result ++ [faddr])%list
      else functions_removed_loop fs' self result
  end.

Definition functions_removed (self : t)
  : Py.result (list string * list warning * t) :=
  '(changed, log, self) ← functions_changed self;
  let '(result, self) := functions_removed_loop (sorted changed) self [] in
  Ok (result, log, self).

End WithCallgraphMatcher.

End RelationalAnalysis.

(** ** chb/invariants/XXprUtil.py: variables to AST lvalues *)

Module XXprUtil.

(** [chb.invariants.VMemoryOffset], as far as it is read here: whether the
    offset is a constant, its value, and its printed form. *)
Record VMemoryOffset : Type := mk_offset {
  is_constant_value_offset : bool;
  offsetvalue : Z;
  offset_str : string
}.

(** [ASTIFormalVarInfo]: a formal parameter with its argument locations. *)
Record ASTIFormalVarInfo : Type := mk_formal {
  vname : string;
  argindex : Z;
  arglocs : list string
}.

(** [VInitialRegisterValue] *)
Record VInitialRegisterValue : Type := mk_vinit {
  register : string;
  is_stack_pointer : bool;
  is_argument_value : bool;
  argument_index : Z
}.

Section WithTypes.
(** [chb.ast.ASTNode.ASTTyp], passed through unchanged. *)
Context {ASTTyp : Type}.

(** The lvalues the AST builder returns, one constructor per builder call
    used below. *)
Inductive ASTLval : Type :=
| mk_stack_variable_lval (offset : Z) (vtype : option ASTTyp)
| mk_named_lval (name : string)
| mk_register_variable_lval (name : string) (registername : option string)
| mk_formal_lval (formal : ASTIFormalVarInfo).

(** The queries of [ASTInterface] used below; the location indices are
    positions in [arglocs]. *)
Record ASTInterface : Type := mk_astree {
  get_formal_locindices : Z → ASTIFormalVarInfo * list nat;
  function_argument : Z → list ASTLval
}.

Definition stack_variable_to_ast_lvals (offset : VMemoryOffset)
    (astree : ASTInterface) (size : Z) (ctype : option ASTTyp)
  : list ASTLval :=
  if is_constant_value_offset offset then
    if bool_decide (size = 2) then
      let v1 := mk_stack_variable_lval (offsetvalue offset) ctype in
      let v2 := mk_stack_variable_lval (offsetvalue offset + 1) ctype in
      [v1; v2]
    else [mk_stack_variable_lval (offsetvalue offset) ctype]
  else [mk_named_lval ("stack: " ++ offset_str offset)].

(** The loop of [vinitregister_value_list_to_ast_lvals]: the two index sets
    and the variable [formal], bound to the formal of the last element. *)
Fixpoint formal_indices (astree : ASTInterface)
    (vconstvars : list VInitialRegisterValue)
    (formal_argindices : gset Z) (formal_locindices : gset nat)
    (formal : option ASTIFormalVarInfo)
  : gset Z * gset nat * option ASTIFormalVarInfo :=
  match vconstvars with
  | [] => (formal_argindices, formal_locindices, formal)
  | vconstvar :: rest =>
      let argindex := argument_index vconstvar in
      let '(formal', locindices) := get_formal_locindices astree argindex in
      formal_indices astree rest
        ({[ XXprUtil.argindex formal' ]} ∪ formal_argindices)
        (list_to_set locindices ∪ formal_locindices)
        (Some formal')
  end.

Definition vinitregister_value_list_to_ast_lvals
    (vconstvars : list VInitialRegisterValue) (astree : ASTInterface)
  : result (list ASTLval) :=
  let registers :=
    (λ vconstvar, mk_register_variable_lval (register vconstvar) None)
      <$> vconstvars in
  if forallb is_argument_value vconstvars then
    let '(formal_argindices, formal_locindices, formal) :=
      formal_indices astree vconstvars ∅ ∅ None in
    if bool_decide (size formal_argindices = 1%nat) then
      match formal with
      | None => Raise (UnboundLocalError "formal")
      | Some formal =>
          if bool_decide (size formal_locindices = length (arglocs formal))
          then Ok [mk_formal_lval formal]
          else Ok registers
      end
    else Ok registers
  else Ok registers.

Definition vinitregister_value_to_ast_lvals
    (vconstvar : VInitialRegisterValue) (astree : ASTInterface)
  : list ASTLval :=
  if is_argument_value vconstvar then
    let argindex := argument_index vconstvar in
    let arglvals := function_argument astree argindex in
    if bool_decide (0 < length arglvals)%nat then arglvals
    else
      let register := register vconstvar in
      [mk_register_variable_lval (register ++ "_in") (Some register)]
  else if is_stack_pointer vconstvar then
    [mk_register_variable_lval "base_sp" None]
  else
    let register := register vconstvar in
    [mk_register_variable_lval (register ++ "_in") (Some register)].

End WithTypes.

Arguments ASTLval : clear implicits.
Arguments ASTInterface : clear implicits.

End XXprUtil.

(** ** Simulation values and single-opcode steps *)

Module Sim.

(** The simulation values tested by the opcodes, after the classes of
    chb/simulate/SimSymbolicValue.py: literals (possibly undefined),
    addresses with a known base, string addresses, symbols, and the
    remaining symbolic values. *)
Inductive SimValue : Type :=
| SimLiteralValue (value : Z) (defined : bool)
| SimGlobalAddress (offset : Z)
| SimStackAddress (offset : Z)
| SimBaseAddress (base : string) (offset : Z)
| SimStringAddress (stringval : string)
| SimSymbol (name : string)
| SimEnvironmentString (offset : Z)
| SimTaintedData (source : string).

Definition simUndefinedDW : SimValue := SimLiteralValue 0 false.
Definition mk_simvalue (v : Z) : SimValue := SimLiteralValue v true.
Definition mk_symbol (name : string) : SimValue := SimSymbol name.

Definition is_literal (v : SimValue) : bool :=
  match v with SimLiteralValue _ _ => true | _ => false end.
Definition is_defined (v : SimValue) : bool :=
  match v with SimLiteralValue _ d => d | _ => true end.
Definition is_undefined (v : SimValue) : bool := negb (is_defined v).
Definition is_symbolic (v : SimValue) : bool := negb (is_literal v).
Definition is_symbol (v : SimValue) : bool :=
  match v with SimSymbol _ => true | _ => false end.
Definition is_global_address (v : SimValue) : bool :=
  match v with SimGlobalAddress _ => true | _ => false end.
Definition is_stack_address (v : SimValue) : bool :=
  match v with SimStackAddress _ => true | _ => false end.
Definition is_base_address (v : SimValue) : bool :=
  match v with SimBaseAddress _ _ => true | _ => false end.
Definition is_address (v : SimValue) : bool :=
  is_global_address v || is_stack_address v || is_base_address v.

Definition literal_value (v : SimValue) : Z :=
  match v with SimLiteralValue n _ => n | _ => 0 end.
Definition offsetvalue (v : SimValue) : Z :=
  match v with
  | SimGlobalAddress o | SimStackAddress o | SimBaseAddress _ o => o
  | _ => 0
  end.
Definition base (v : SimValue) : string :=
  match v with
  | SimGlobalAddress _ => "global"
  | SimStackAddress _ => "stack"
  | SimBaseAddress b _ => b
  | _ => ""
  end.
Definition symbol_name (v : SimValue) : string :=
  match v with SimSymbol n => n | _ => "" end.

(** Modelled from the spec: [SU.max32] is not part of these sources; "all
    arithmetic on machine words is modulo 2^32". *)
Definition max32 : Z := 4294967295.

(** [add_offset]: the offset is a doubleword, the sum wraps around. *)
Definition add_offset (v : SimValue) (intval : Z) : SimValue :=
  match v with
  | SimGlobalAddress o => SimGlobalAddress ((o + intval) mod (max32 + 1))
  | SimStackAddress o => SimStackAddress ((o + intval) mod (max32 + 1))
  | SimBaseAddress b o => SimBaseAddress b ((o + intval) mod (max32 + 1))
  | _ => v
  end.

(** What the opcodes take from [SimValue], which is not part of these
    sources: printing and literal arithmetic. *)
Class SimOps : Type := mk_simops {
  str_value : SimValue → string;
  literal_add : SimValue → SimValue → SimValue;
  bitwise_ror : SimValue → SimValue → SimValue;
  msb : SimValue → Z;
  msb2 : SimValue → Z
}.

(** The simulation state classes ([SimulationState], [MIPSimulationState],
    [X86SimulationState]) and [SimUtil.simassign] are not part of these
    sources either. A state is a value of a type [S] with the methods the
    opcodes call, each under the name the source calls it by; a method that
    updates the state returns the new state, and [set] also returns the
    location it wrote to, of a type [Lhs]. Operands are named by their
    printed form. *)
Class SimState (S Lhs : Type) : Type := mk_simstate {
  rhs : S → string → string → SimValue;
  get_rhs : S → string → string → SimValue;
  set : S → string → string → SimValue → Lhs * S;
  update_flag : S → string → string → bool → S;
  increment_programcounter : S → S;
  increment_program_counter : S → S;
  simassign : string → S → Lhs → SimValue → string → string
}.

(** The three operands of a MIPS register-register opcode. *)
Record MIPSOpcode : Type := mk_mips {
  dst_operand : string;
  src1_operand : string;
  src2_operand : string
}.

(** The two operands of an x86 rotate. *)
Record X86Opcode : Type := mk_x86 {
  x86_dst_operand : string;
  x86_src_operand : string
}.

Section WithSimOps.
Context `{SimOps} {S Lhs : Type} `{SimState S Lhs}.

(** The common tail of the MIPS steps: write, advance, report. [advance]
    is the increment method the step calls. *)
Definition assign_and_advance (advance : S → S) (self : MIPSOpcode)
    (iaddr : string) (simstate : S) (src1val src2val result : SimValue)
  : string * S :=
  let '(lhs, simstate) := set simstate iaddr (dst_operand self) result in
  let simstate := advance simstate in
  (simassign iaddr simstate lhs result
     ("val(" ++ src1_operand self ++ ") = " ++ str_value src1val
      ++ ", val(" ++ src2_operand self ++ ") = " ++ str_value src2val),
   simstate).

End WithSimOps.

End Sim.

(** *** chb/mips/opcodes/MIPSSubtractUnsigned.py *)

Module MIPSSubtractUnsigned.
Import Sim.

Section WithSimOps.
Context `{SimOps} {S Lhs : Type} `{SimState S Lhs}.

Definition simulate (self : MIPSOpcode) (iaddr : string)
    (simstate : S) : result (string * S) :=
  let dstop := dst_operand self in
  let src1op := src1_operand self in
  let src2op := src2_operand self in
  let src1val := rhs simstate iaddr src1op in
  let src2val := rhs simstate iaddr src2op in
  let finish :=
    assign_and_advance increment_programcounter self iaddr simstate
      src1val src2val in
  if is_undefined src1val || is_undefined src2val then
    Ok (finish simUndefinedDW)
  else if is_symbol src1val || is_symbol src2val then
    let expr := str_value src1val ++ " - " ++ str_value src2val in
    Raise (CHBSymbolicExpression iaddr dstop expr)
  else if is_base_address src1val && is_base_address src2val then
    if str_eqb (base src1val) (base src2val) then
      let diff := (offsetvalue src1val - offsetvalue src2val) mod (max32 + 1) in
      Ok (finish (mk_simvalue diff))
    else Ok (finish simUndefinedDW)
  else if is_stack_address src1val && is_stack_address src2val then
    let diff := (offsetvalue src1val - offsetvalue src2val) mod (max32 + 1) in
    Ok (finish (mk_simvalue diff))
  else if is_stack_address src1val && is_literal src2val then
    Ok (finish (add_offset src1val (- literal_value src2val)))
  else if is_global_address src1val && is_global_address src2val then
    let diff := (offsetvalue src1val - offsetvalue src2val) mod (max32 + 1) in
    Ok (finish (mk_simvalue diff))
  else if is_global_address src1val && is_literal src2val then
    let diff := (offsetvalue src1val - literal_value src2val) mod (max32 + 1) in
    Ok (finish (mk_simvalue diff))
  else if is_literal src1val && is_literal src2val then
    let diff := (literal_value src1val - literal_value src2val) mod (max32 + 1) in
    Ok (finish (mk_simvalue diff))
  else Ok (finish simUndefinedDW).

End WithSimOps.

End MIPSSubtractUnsigned.

(** *** chb/mips/opcodes/MIPSAddUnsigned.py *)

Module MIPSAddUnsigned.
Import Sim.

Section WithSimOps.
Context `{SimOps} {S Lhs : Type} `{SimState S Lhs}.

Definition simulate (self : MIPSOpcode) (iaddr : string)
    (simstate : S) : result (string * S) :=
  let dstop := dst_operand self in
  let src1op := src1_operand self in
  let src2op := src2_operand self in
  let src1val := get_rhs simstate iaddr src1op in
  let src2val := get_rhs simstate iaddr src2op in
  let finish :=
    assign_and_advance increment_program_counter self iaddr simstate
      src1val src2val in
  if is_symbol src2val then
    Ok (finish (mk_symbol (symbol_name src2val ++ ":add " ++ str_value src1val)))
  else if is_symbol src1val || is_symbol src2val then
    let expr := str_value src1val ++ " + " ++ str_value src2val in
    Raise (CHBSymbolicExpression iaddr dstop expr)
  else if is_address src2val && is_literal src1val && is_defined src1val then
    Ok (finish (add_offset src2val (literal_value src1val)))
  else if is_literal src1val && is_defined src1val then
    Ok (finish (literal_add src1val src2val))
  else Ok (finish simUndefinedDW).

End WithSimOps.

End MIPSAddUnsigned.

(** *** chb/x86/opcodes/X86RotateRight.py *)

Module X86RotateRight.
Import Sim.

Section WithSimOps.
Context `{SimOps} {S Lhs : Type} `{SimState S Lhs}.

Definition simulate (self : X86Opcode) (iaddr : string)
    (simstate : S) : result S :=
  let srcop := x86_src_operand self in
  let dstop := x86_dst_operand self in
  let srcval := get_rhs simstate iaddr srcop in
  let dstval := get_rhs simstate iaddr dstop in
  if is_literal dstval && is_literal srcval then
    let result := bitwise_ror dstval srcval in
    let '(_, simstate) := set simstate iaddr dstop result in
    if bool_decide (literal_value srcval > 0) then
      let cflag := msb result in
      let simstate := update_flag simstate iaddr "CF" (bool_decide (cflag = 1)) in
      if bool_decide (literal_value srcval = 1) then
        let oflag := Z.lxor (msb result) (msb2 result) in
        Ok (update_flag simstate iaddr "OF" (bool_decide (oflag = 1)))
      else Ok simstate
    else Ok simstate
  else
    Raise (CHBSimError iaddr
             ("Bitwise_ror not yet implemented for "
              ++ dstop ++ ":" ++ str_value dstval ++ ", "
              ++ srcop ++ ":" ++ str_value srcval)).

End WithSimOps.

End X86RotateRight.

(** * Predicates of the statements *)

(** [sub] occurs in [s]. *)
Definition occurs (sub s : string) : Prop :=
  ∃ pre post, s = pre ++ sub ++ post.








(** * Sample inputs *)

Definition sample_instr (a : string) : Instruction.t :=
  Instruction.mk a "00000000" "nop" None false.


(** ** Lowering: the conditions of the aggregate merge *)

Section MergeConditions.
Import XXprUtil.
Context {ASTTyp : Type}.

Definition formal_of (astree : ASTInterface ASTTyp)
    (v : VInitialRegisterValue) : ASTIFormalVarInfo :=
  (get_formal_locindices astree (argument_index v)).1.

Definition locindices_of (astree : ASTInterface ASTTyp)
    (v : VInitialRegisterValue) : list nat :=
  (get_formal_locindices astree (argument_index v)).2.

(** All variables are argument values of [formal], and their location
    indices together are exactly the positions of [arglocs formal]. *)
Definition covers_formal (astree : ASTInterface ASTTyp)
    (vconstvars : list VInitialRegisterValue) (formal : ASTIFormalVarInfo)
  : Prop :=
  vconstvars ≠ []
  ∧ Forall (λ v, is_argument_value v = true) vconstvars
  ∧ Forall (λ v, formal_of astree v = formal) vconstvars
  ∧ ∀ i, (i < length (arglocs formal))%nat
         ↔ ∃ v, v ∈ vconstvars ∧ i ∈ locindices_of astree v.

(** What the AST builder guarantees about [get_formal_locindices]: the
    indices are positions of the formal's locations, and a formal is
    identified by its argument index. *)
Definition astree_wf (astree : ASTInterface ASTTyp) : Prop :=
  (∀ a i, i ∈ (get_formal_locindices astree a).2
          → (i < length (arglocs (get_formal_locindices astree a).1))%nat)
  ∧ (∀ a a', argindex (get_formal_locindices astree a).1
             = argindex (get_formal_locindices astree a').1
             → (get_formal_locindices astree a).1
               = (get_formal_locindices astree a').1).

Definition register_lvals (vconstvars : list VInitialRegisterValue)
  : list (ASTLval ASTTyp) :=
  (λ v, mk_register_variable_lval (register v) None) <$> vconstvars.

End MergeConditions.

(** A two-register formal: [$a0] and [$a1] hold the halves of argument 0;
    every other argument index belongs to a one-location formal. *)
Definition formal_pair : XXprUtil.ASTIFormalVarInfo :=
  XXprUtil.mk_formal "x" 0 ["$a0"; "$a1"].

Definition formal_single (a : Z) : XXprUtil.ASTIFormalVarInfo :=
  XXprUtil.mk_formal "y" a ["$r"].

Definition sample_astree : XXprUtil.ASTInterface unit :=
  XXprUtil.mk_astree
    (λ a, if bool_decide (a = 0) then (formal_pair, [0%nat])
          else if bool_decide (a = 1) then (formal_pair, [1%nat])
          else (formal_single a, [0%nat]))
    (λ _, []).

Definition reg_a0 : XXprUtil.VInitialRegisterValue :=
  XXprUtil.mk_vinit "$a0" false true 0.
Definition reg_a1 : XXprUtil.VInitialRegisterValue :=
  XXprUtil.mk_vinit "$a1" false true 1.

Definition sample_offset (k : Z) : XXprUtil.VMemoryOffset :=
  XXprUtil.mk_offset true k "".

(** A stand-in digest for the examples: the text itself. *)
Definition sample_hashlib : Hashlib := λ s, s.

Definition app_little : AppAccess.t := AppAccess.mk false [] [] [].
Definition app_big : AppAccess.t := AppAccess.mk true [] [] [].

(** One MIPS instruction in little-endian and in big-endian byte order. *)
Definition instr_le : Instruction.t :=
  Instruction.mk "0x400100" "2128e003" "a1 := ra" None false.
Definition instr_be : Instruction.t :=
  Instruction.mk "0x400100" "03e02821" "a1 := ra" None false.

Definition sample_function (faddr md5 rev_md5 : string) : Function.t :=
  Function.mk faddr [] (Cfg.mk ∅) md5 rev_md5.

(** ** Functions: address-isomorphic control flow graphs *)

Section StructuralConditions.
Import FunctionRelationalAnalysis.

(** The number an address string stands for. *)
Definition address_value (s : string) : Z := default 0 (parse s).

(** An address of B moved back by [d]; an edge of B moved back by [d]. *)
Definition shift (d : Z) (s : string) : string := hex (address_value s - d).
Definition shift_edge (d : Z) (e : string * string) : string * string :=
  (shift d e.1, shift d e.2).

(** The two graphs are identical up to the offset [d]: equal block counts,
    equal edge counts, B's block addresses shifted by [-d] are A's block
    addresses, B's edges shifted by [-d] are A's edges. *)
Definition structurally_identical (self : t) (d : Z) : Prop :=
  length (basic_blocks1 self) = length (basic_blocks2 self)
  ∧ size (edges1 self) = size (edges2 self)
  ∧ set_map (D:=gset string) (shift d)
      (list_to_set (keys (basic_blocks2 self)) : gset string)
    = list_to_set (keys (basic_blocks1 self))
  ∧ set_map (D:=gset (string * string)) (shift_edge d) (edges2 self)
    = edges1 self.

(** The addresses of B are hexadecimal strings as [hex] prints them, and the
    keys of its block dict are distinct. *)
Definition addresses_wf (self : t) : Prop :=
  NoDup (keys (basic_blocks2 self))
  ∧ Forall canonical (keys (basic_blocks2 self))
  ∧ ∀ e, e ∈ edges2 self → canonical e.1 ∧ canonical e.2.

End StructuralConditions.

(** A function of two blocks with one edge, at 0x1000 and moved to 0x2000. *)
Definition sample_block (a : string) : BasicBlock.t :=
  BasicBlock.mk a [(a, sample_instr a)].

Definition fn_at_1000 : Function.t :=
  Function.mk "0x1000"
    [("0x1000", sample_block "0x1000"); ("0x1010", sample_block "0x1010")]
    (Cfg.mk {[ ("0x1000", "0x1010") ]}) "aa" "aa".

Definition fn_at_2000 : Function.t :=
  Function.mk "0x2000"
    [("0x2000", sample_block "0x2000"); ("0x2010", sample_block "0x2010")]
    (Cfg.mk {[ ("0x2000", "0x2010") ]}) "aa" "aa".

Definition fra_moved : FunctionRelationalAnalysis.t :=
  FunctionRelationalAnalysis.__init__ app_little fn_at_1000
    app_little fn_at_2000.

(** Two binaries with the functions 0x1000 and 0x2000, both changed by the
    patch; the analysis is restricted to 0x1000. *)
Definition app_original : AppAccess.t :=
  AppAccess.mk false ["0x1000"; "0x2000"]
    [("0x1000", "aa"); ("0x2000", "bb")]
    [("0x1000", sample_function "0x1000" "aa" "aa");
     ("0x2000", sample_function "0x2000" "bb" "bb")].

Definition app_patched : AppAccess.t :=
  AppAccess.mk false ["0x1000"; "0x2000"]
    [("0x1000", "ab"); ("0x2000", "bc")]
    [("0x1000", sample_function "0x1000" "ab" "ba");
     ("0x2000", sample_function "0x2000" "bc" "cb")].

Definition ra_restricted : RelationalAnalysis.t :=
  RelationalAnalysis.__init__ app_original app_patched
    ["0x1000"] ["0x1000"] [] [] [].

(** The same pair, compared in full, with a user mapping. *)
Definition ra_usermapped : RelationalAnalysis.t :=
  RelationalAnalysis.__init__ app_original app_patched
    [] [] [("0x1000", "0x2000")] [] [].

(** A matcher for the examples: it returns its seed. *)
Definition sample_matcher : CallgraphMatcher := λ _ _ _ _ seed, seed.

(** ** Simulation: the signal for symbolic operands *)

(** The step raised the symbolic-expression signal. *)
Definition raises_symbolic_expression {A : Type} (r : result A) : Prop :=
  ∃ iaddr dstop expr, r = Raise (CHBSymbolicExpression iaddr dstop expr).

(** Printing and literal arithmetic for the examples. *)
Definition sample_simops : Sim.SimOps :=
  Sim.mk_simops
    (λ v, match v with
          | Sim.SimSymbol n => "sym:" ++ n
          | Sim.SimLiteralValue n _ => hex n
          | _ => "symbolic value"
          end)
    (λ v w, Sim.mk_simvalue
              ((Sim.literal_value v + Sim.literal_value w) mod (Sim.max32 + 1)))
    (λ v w, v)
    (λ v, Z.b2z (Z.testbit (Sim.literal_value v) 31))
    (λ v, Z.b2z (Z.testbit (Sim.literal_value v) 30)).

(** A state for the examples: registers and flags by name and a program
    counter that both increment methods move by four; an operand that holds
    nothing reads as the undefined value. *)
Record SampleState : Type := mk_state {
  registers : gmap string Sim.SimValue;
  flags : gmap string bool;
  programcounter : Z
}.

Definition sample_rhs (simstate : SampleState) (iaddr op : string)
  : Sim.SimValue :=
  default Sim.simUndefinedDW (registers simstate !! op).

Definition sample_simstate : Sim.SimState SampleState string :=
  Sim.mk_simstate SampleState string
    sample_rhs
    sample_rhs
    (λ simstate iaddr dstop srcval,
       (dstop,
        mk_state (<[dstop := srcval]> (registers simstate))
                 (flags simstate) (programcounter simstate)))
    (λ simstate iaddr flag b,
       mk_state (registers simstate) (<[flag := b]> (flags simstate))
                (programcounter simstate))
    (λ simstate,
       mk_state (registers simstate) (flags simstate)
                (programcounter simstate + 4))
    (λ simstate,
       mk_state (registers simstate) (flags simstate)
                (programcounter simstate + 4))
    (λ iaddr simstate lhs result text,
       iaddr ++ ": " ++ lhs ++ " := " ++ text).

Definition addu_a0_a1_a2 : Sim.MIPSOpcode := Sim.mk_mips "a0" "a1" "a2".
Definition ror_eax_cl : Sim.X86Opcode := Sim.mk_x86 "eax" "cl".

(** [a1] holds the literal 1, [a2] a symbol. *)
Definition state_symbol_in_rt : SampleState :=
  mk_state
    (<["a1" := Sim.mk_simvalue 1]> (<["a2" := Sim.SimSymbol "x"]> ∅)) ∅ 0.

(** [a1] holds a symbol, [a2] the literal 1. *)
Definition state_symbol_in_rs : SampleState :=
  mk_state
    (<["a1" := Sim.SimSymbol "x"]> (<["a2" := Sim.mk_simvalue 1]> ∅)) ∅ 0.

(** The same block in little-endian and in big-endian byte order. *)
Definition block_le : BasicBlock.t :=
  BasicBlock.mk "0x400100" [("0x400100", instr_le)].
Definition block_be : BasicBlock.t :=
  BasicBlock.mk "0x400100" [("0x400100", instr_be)].

(** A block of an inlined function: its address carries the tag of the
    inlined call. *)
Definition block_inlined : BasicBlock.t :=
  BasicBlock.mk "F0x401000_0x400200" [].

(** The function at 0x2000 of the original is replaced by one at 0x3000. *)
Definition ra_replaced : RelationalAnalysis.t :=
  RelationalAnalysis.__init__ app_original app_patched
    ["0x1000"; "0x2000"] ["0x1000"; "0x3000"] [] [] [].

(** The original restricted to 0x1000 against two functions of the patched
    binary: the counts differ and the matcher maps nothing. *)
Definition ra_unmatched : RelationalAnalysis.t :=
  RelationalAnalysis.__init__ app_original app_patched
    ["0x1000"] ["0x1000"; "0x2000"] [] [] [].

(** [a1] holds a stack address, [a2] the literal 4; and the other way
    round. *)
Definition state_address_in_rs : SampleState :=
  mk_state
    (<["a1" := Sim.SimStackAddress 16]> (<["a2" := Sim.mk_simvalue 4]> ∅))
    ∅ 0.

Definition state_address_in_rt : SampleState :=
  mk_state
    (<["a1" := Sim.mk_simvalue 4]> (<["a2" := Sim.SimStackAddress 16]> ∅))
    ∅ 0.



(** * Properties *)

(** ** Strings: substring test and occurrence *)

Section StringFacts.

Lemma prefix_spec (p s : string) :
  String.prefix p s = true ↔ ∃ post, s = p ++ post.
Proof.
  revert s. induction p as [|a p IH]; intros s; simpl.
  - destruct s; split; eauto.
  - destruct s as [|b s]; simpl.
    + split; [discriminate | intros [post Hpost]; discriminate].
    + destruct (ascii_dec a b) as [->|Hne].
      * rewrite IH. split; intros [post Hpost]; exists post.
        -- by rewrite Hpost.
        -- by injection Hpost.
      * split; [discriminate|].
        intros [post Hpost]. injection Hpost as Hab _. congruence.
Qed.

Lemma str_in_spec (sub s : string) :
  str_in sub s = true ↔ occurs sub s.
Proof.
  unfold occurs. induction s as [|b s IH]; cbn [str_in].
  - rewrite orb_false_r, prefix_spec. split.
    + intros [post Hpost]. by exists "", post.
    + intros [pre [post Hs]]. destruct pre; simpl in Hs; [|discriminate].
      by exists post.
  - rewrite orb_true_iff, prefix_spec, IH. split.
    + intros [[post Hpost]|[pre [post Hs]]].
      * by exists "", post.
      * exists (String b pre), post. simpl. by rewrite Hs.
    + intros [pre [post Hs]]. destruct pre as [|c pre]; simpl in Hs.
      * left. by exists post.
      * right. injection Hs as _ Hs. by exists pre, post.
Qed.

End StringFacts.

(** ** Instruction relational analysis *)

Section InstructionFacts.
Context `{Hashlib}.
Import InstructionRelationalAnalysis.

Lemma changes_unmapped (app1 : AppAccess.t) (i1 : Instruction.t)
    (app2 : AppAccess.t) :
  changes (__init__ app1 i1 app2 None) = Ok ["address"; "bytes"; "semantics"].
Proof. reflexivity. Qed.

(** C5: an analysis constructed without a second instruction reports
    [is_changed = True] (all three change kinds are listed and no comparison
    touches the missing side), and asking for [instr2] raises the
    no-correspondence [CHBError] naming the address of the first
    instruction. *)
Theorem unmapped_is_changed_and_instr2_raises (app1 : AppAccess.t)
    (i1 : Instruction.t) (app2 : AppAccess.t) :
  let ira := __init__ app1 i1 app2 None in
  is_mapped ira = false
  ∧ is_changed ira = Ok true
  ∧ instr2 ira
    = Raise (CHBError ("No corresponding instruction found for "
                       ++ Instruction.iaddr i1))
  ∧ ∀ i, instr2 ira ≠ Ok i.
Proof.
  simpl. repeat split; try reflexivity. intros i. discriminate.
Qed.

Lemma calls_function_loop_spec (annotation : string) (callees : list string) :
  calls_function_loop annotation callees = true
  ↔ ∃ c, c ∈ callees ∧ occurs c annotation ∧ occurs "call" annotation.
Proof.
  induction callees as [|c cs IH]; simpl.
  - split; [discriminate|]. intros [c [Hc _]]. by apply elem_of_nil in Hc.
  - destruct (str_in c annotation && str_in "call" annotation) eqn:Hc.
    + apply andb_true_iff in Hc as [Hc1 Hc2].
      apply str_in_spec in Hc1. apply str_in_spec in Hc2.
      split; [|done]. intros _. exists c. split; [left|done].
    + rewrite IH. split.
      * intros [c' [Hin Hocc]]. exists c'. split; [by right|done].
      * intros [c' [Hin [Ho1 Ho2]]].
        apply elem_of_cons in Hin as [->|Hin].
        -- apply str_in_spec in Ho1. apply str_in_spec in Ho2.
           rewrite Ho1, Ho2 in Hc. discriminate.
        -- by exists c'.
Qed.

(** C10: [calls_function] is true for the empty callee list; for a non-empty
    list it is true exactly when some callee occurs in the annotation of the
    first instruction and the word "call" occurs in it too; the result does
    not depend on the applications or on the second instruction. *)
Theorem calls_function_spec (self : t) :
  calls_function self [] = true
  ∧ (∀ c cs,
       calls_function self (c :: cs) = true
       ↔ ∃ c', c' ∈ c :: cs
              ∧ occurs c' (Instruction.annotation (instr1 self))
              ∧ occurs "call" (Instruction.annotation (instr1 self)))
  ∧ (∀ app1' app2' i2' callees,
       calls_function (__init__ app1' (instr1 self) app2' i2') callees
       = calls_function self callees).
Proof.
  split; [reflexivity|]. split.
  - intros c cs. unfold calls_function.
    rewrite bool_decide_eq_false_2 by discriminate.
    apply calls_function_loop_spec.
  - reflexivity.
Qed.

End InstructionFacts.

(** ** The order of [sorted] *)

Section SortedFacts.






Lemma insert_sorted_elem (x y : string) (l : list string) :
  y ∈ insert_sorted x l ↔ y = x ∨ y ∈ l.
Proof.
  induction l as [|z l IH]; simpl.
  - rewrite list_elem_of_singleton, elem_of_nil. tauto.
  - destruct (String.leb x z); rewrite !elem_of_cons; [done|].
    rewrite IH. tauto.
Qed.

Lemma sorted_elem (y : string) (l : list string) : y ∈ sorted l ↔ y ∈ l.
Proof.
  induction l as [|x l IH]; simpl; [done|].
  rewrite insert_sorted_elem, IH, elem_of_cons. tauto.
Qed.



Lemma sorted_length (l : list string) : length (sorted l) = length l.
Proof.
  induction l as [|x l IH]; simpl; [done|]. rewrite <- IH.
  generalize (sorted l). intros s.
  induction s as [|z s IHs]; simpl; [done|].
  destruct (String.leb x z); simpl; [done|]. by rewrite IHs.
Qed.


End SortedFacts.

(** ** Basic blocks: the last address *)

Section BasicBlockFacts.
Import BasicBlock.


End BasicBlockFacts.

(** ** [hex] and [int(_, 16)] are inverse on addresses *)

Section HexFacts.

(** Evaluate [digit] at a literal character. *)
Ltac eval_digit :=
  match goal with
  | |- context [digit ?c] =>
      let v := eval vm_compute in (digit c) in
      change (digit c) with v; cbv beta iota
  end.

Lemma digits_acc_pos (d : uint) (acc : positive) :
  digits_acc (NilEmpty.string_of_uint d) (Npos acc)
  = Some (Npos (Pos.of_hex_uint_acc d acc)).
Proof.
  revert acc. induction d as [|d IH|d IH|d IH|d IH|d IH|d IH|d IH|d IH
                              |d IH|d IH|d IH|d IH|d IH|d IH|d IH|d IH];
    intros acc; [reflexivity|..];
    cbn [NilEmpty.string_of_uint digits_acc Pos.of_hex_uint_acc];
    eval_digit; rewrite <- IH; f_equal; lia.
Qed.

Lemma digits_acc_zero (d : uint) :
  digits_acc (NilEmpty.string_of_uint d) 0%N = Some (Pos.of_hex_uint d).
Proof.
  induction d as [|d IH|d IH|d IH|d IH|d IH|d IH|d IH|d IH
                  |d IH|d IH|d IH|d IH|d IH|d IH|d IH|d IH];
    [reflexivity|exact IH|..];
    cbn [NilEmpty.string_of_uint digits_acc Pos.of_hex_uint];
    eval_digit; rewrite <- digits_acc_pos; f_equal.
Qed.

Lemma digits_to_hex (p : positive) :
  digits_acc (NilEmpty.string_of_uint (Pos.to_hex_uint p)) 0%N
  = Some (Npos p)
  ∧ NilEmpty.string_of_uint (Pos.to_hex_uint p) ≠ "".
Proof.
  pose proof (digits_acc_zero (Pos.to_hex_uint p)) as Hd.
  rewrite HexadecimalPos.Unsigned.of_to in Hd. split; [done|].
  intros Hnil. rewrite Hnil in Hd. discriminate.
Qed.

Lemma digit_underscore (c : ascii) (d : N) :
  digit c = Some d → Ascii.eqb c "_" = false.
Proof.
  destruct c as [[] [] [] [] [] [] [] []]; simpl; intros Hc;
    try discriminate; reflexivity.
Qed.

(** On a plain string of digits [scan] reads all of it. *)
Lemma scan_digits (u : string) (acc r : N) (seen : bool) :
  digits_acc u acc = Some r → seen = true ∨ u ≠ "" →
  scan u acc false seen = Some (r, "").
Proof.
  revert acc seen. induction u as [|c u IH]; intros acc seen Hd Hne.
  - destruct Hne as [->|?]; [|done]. injection Hd as <-. reflexivity.
  - cbn [digits_acc] in Hd. cbn [scan].
    destruct (digit c) as [d|] eqn:Hc; [|discriminate].
    rewrite (digit_underscore c d Hc). apply IH; [done|by left].
Qed.

Lemma parse_digits (u : string) (r : N) (negative : bool) :
  u ≠ "" → digits_acc u 0%N = Some r →
  match strip_0x (String "0" (String "x" u)) with
  | String c _ =>
      if Ascii.eqb c "_" then None
      else
        match scan (strip_0x (String "0" (String "x" u))) 0 false false with
        | Some (n, rest) =>
            match skip_spaces rest with
            | EmptyString =>
                Some (if negative then - Z.of_N n else Z.of_N n)
            | _ => None
            end
        | None => None
        end
  | EmptyString => None
  end = Some (if negative then - Z.of_N r else Z.of_N r).
Proof.
  intros Hne Hd. destruct u as [|c u]; [done|].
  pose proof Hd as Hc. cbn [digits_acc] in Hc.
  destruct (digit c) as [d|] eqn:Hdc; [|discriminate].
  cbn [strip_0x]. change (Ascii.eqb "0" "0") with true.
  change (Ascii.eqb "x" "x") with true. cbn [andb orb].
  rewrite (digit_underscore c d Hdc). cbv iota.
  rewrite (digit_underscore c d Hdc).
  by rewrite (scan_digits (String c u) 0 r false Hd (or_intror Hne)).
Qed.

Lemma parse_0x (u : string) (r : N) :
  u ≠ "" → digits_acc u 0%N = Some r → parse ("0x" ++ u) = Some (Z.of_N r).
Proof.
  intros Hne Hd. exact (parse_digits u r false Hne Hd).
Qed.

Lemma parse_neg_0x (u : string) (r : N) :
  u ≠ "" → digits_acc u 0%N = Some r →
  parse ("-0x" ++ u) = Some (- Z.of_N r).
Proof.
  intros Hne Hd. exact (parse_digits u r true Hne Hd).
Qed.

Lemma parse_hex (z : Z) : parse (hex z) = Some z.
Proof.
  destruct z as [|p|p]; [reflexivity|..]; unfold hex;
    destruct (digits_to_hex p) as [Hd Hne].
  - by rewrite (parse_0x _ _ Hne Hd).
  - by rewrite (parse_neg_0x _ _ Hne Hd).
Qed.

Lemma int16_hex (z : Z) : int16 (hex z) = Ok z.
Proof. unfold int16. by rewrite parse_hex. Qed.

Lemma hex_inj (z1 z2 : Z) : hex z1 = hex z2 → z1 = z2.
Proof.
  intros Heq. apply (f_equal parse) in Heq. rewrite !parse_hex in Heq.
  by injection Heq.
Qed.

Lemma canonicalb_spec (s : string) : canonicalb s = true ↔ canonical s.
Proof.
  unfold canonicalb, canonical, str_eqb. split.
  - destruct (parse s) as [z|]; [|discriminate].
    intros Hz. apply bool_decide_eq_true in Hz. by exists z.
  - intros [z ->]. rewrite parse_hex. by apply bool_decide_eq_true.
Qed.

End HexFacts.

(** ** Addresses of one width: string order is numeric order *)

Section WidthFacts.










End WidthFacts.

(** ** Dicts *)

Section DictFacts.
Context {V : Type}.

Lemma get_keys (d : dict V) (k : string) :
  k ∈ keys d ↔ ∃ v, get d k = Some v.
Proof.
  unfold keys. induction d as [|[k' v'] d IH]; simpl.
  - rewrite elem_of_nil. split; [done|]. by intros [v Hv].
  - rewrite elem_of_cons. unfold str_eqb. case_bool_decide as Hk.
    + split; [eauto|auto].
    + rewrite IH. split; [|by auto]. by intros [?|?].
Qed.

Lemma mem_keys (d : dict V) (k : string) : mem k d = true ↔ k ∈ keys d.
Proof.
  rewrite get_keys. unfold mem. destruct (get d k); split; eauto; try done.
  by intros [v Hv].
Qed.

Lemma get_setitem (d : dict V) (k k' : string) (v : V) :
  get (setitem d k v) k' = if str_eqb k' k then Some v else get d k'.
Proof.
  unfold str_eqb. induction d as [|[k0 v0] d IH]; simpl.
  - unfold str_eqb. by repeat case_bool_decide.
  - unfold str_eqb in *. repeat (case_bool_decide; simpl; subst);
      try congruence; unfold str_eqb; repeat case_bool_decide; congruence.
Qed.

Lemma keys_setitem (d : dict V) (k k' : string) (v : V) :
  k' ∈ keys (setitem d k v) ↔ k' = k ∨ k' ∈ keys d.
Proof.
  rewrite !get_keys, get_setitem. unfold str_eqb. case_bool_decide.
  - split; eauto.
  - split; [eauto|]. by intros [?|?].
Qed.

End DictFacts.

(** ** Basic blocks: what [lastaddr] is *)

Section LastAddress.
Import BasicBlock.




End LastAddress.

(** ** Lowering of stack variables and register lists *)

Section Lowering.
Import XXprUtil.

(** C6: a stack variable at the constant offset [k] lowers, for access size
    2, to exactly two stack-slot lvalues, at [k] and at [k + 1] in that
    order (one byte apart; both carry the type the caller passed), and for
    every other size to the single stack-slot lvalue at [k]. *)
Theorem stack_variable_split {ASTTyp : Type} (offset : VMemoryOffset)
    (astree : ASTInterface ASTTyp) (ctype : option ASTTyp) (k : Z) :
  is_constant_value_offset offset = true →
  offsetvalue offset = k →
  stack_variable_to_ast_lvals offset astree 2 ctype
  = [mk_stack_variable_lval k ctype; mk_stack_variable_lval (k + 1) ctype]
  ∧ ∀ size, size ≠ 2 →
      stack_variable_to_ast_lvals offset astree size ctype
      = [mk_stack_variable_lval k ctype].
Proof.
  intros Hconst <-. unfold stack_variable_to_ast_lvals. rewrite Hconst.
  split; [reflexivity|]. intros size Hsize.
  by rewrite bool_decide_eq_false_2.
Qed.

Lemma stack_variable_split_witness :
  stack_variable_to_ast_lvals (sample_offset 8) sample_astree 2 None
  = [mk_stack_variable_lval 8 None; mk_stack_variable_lval (8 + 1) None]
  ∧ ∀ size, size ≠ 2 →
      stack_variable_to_ast_lvals (sample_offset 8) sample_astree size None
      = [mk_stack_variable_lval 8 None].
Proof.
  apply (stack_variable_split (sample_offset 8) sample_astree None 8);
    reflexivity.
Defined.

Section Merge.
Context {ASTTyp : Type} (astree : ASTInterface ASTTyp).

Lemma formal_indices_spec (vs : list VInitialRegisterValue)
    (A : gset Z) (L : gset nat) (f : option ASTIFormalVarInfo) :
  let r := formal_indices astree vs A L f in
  (∀ x, x ∈ r.1.1
        ↔ x ∈ A ∨ ∃ v, v ∈ vs ∧ x = argindex (formal_of astree v))
  ∧ (∀ i, i ∈ r.1.2 ↔ i ∈ L ∨ ∃ v, v ∈ vs ∧ i ∈ locindices_of astree v)
  ∧ r.2 = match last vs with
          | Some v => Some (formal_of astree v)
          | None => f
          end.
Proof.
  revert A L f. induction vs as [|v vs IH]; intros A L f; simpl.
  - repeat split; try tauto; try (intros [?|(? & Hv & _)]; [done|]);
      by apply elem_of_nil in Hv.
  - unfold formal_of, locindices_of in *.
    destruct (get_formal_locindices astree (argument_index v))
      as [fv lv] eqn:Hv.
    specialize (IH ({[argindex fv]} ∪ A) (list_to_set lv ∪ L) (Some fv)).
    destruct IH as (IHa & IHl & IHf). repeat split.
    + rewrite IHa. rewrite elem_of_union, elem_of_singleton.
      intros [[->|?]|(v' & Hv' & ->)]; [right|by left|right].
      * exists v. rewrite Hv. split; [left|done].
      * exists v'. split; [by right|done].
    + rewrite IHa. rewrite elem_of_union, elem_of_singleton.
      intros [?|(v' & Hv' & ->)]; [by auto|].
      apply elem_of_cons in Hv' as [->|Hv'].
      * rewrite Hv. auto.
      * right. by exists v'.
    + rewrite IHl. rewrite elem_of_union, elem_of_list_to_set.
      intros [[?|?]|(v' & Hv' & ?)]; [right|by left|right].
      * exists v. rewrite Hv. split; [left|done].
      * exists v'. split; [by right|done].
    + rewrite IHl. rewrite elem_of_union, elem_of_list_to_set.
      intros [?|(v' & Hv' & Hi)]; [by auto|].
      apply elem_of_cons in Hv' as [->|Hv'].
      * rewrite Hv in Hi. auto.
      * right. by exists v'.
    + rewrite IHf. destruct vs as [|v' vs]; simpl; [by rewrite Hv|].
      destruct (last (v' :: vs)) eqn:Hl; [done|by apply last_None in Hl].
Qed.

Lemma forallb_argument_values (vs : list VInitialRegisterValue) :
  forallb is_argument_value vs = true
  ↔ Forall (λ v, is_argument_value v = true) vs.
Proof.
  induction vs as [|v vs IH]; simpl.
  - split; [constructor|done].
  - rewrite andb_true_iff, IH, Forall_cons. done.
Qed.

(** C7: with a well-formed [get_formal_locindices], if all variables are
    argument values of one formal and their location indices exactly cover
    the locations of that formal, the list lowers to the single lvalue of
    the formal; if no formal is covered in this way (some element is not an
    argument value, the formals differ, or a location is missing), the list
    lowers to one register lvalue per variable. *)
Theorem register_list_merge (vconstvars : list VInitialRegisterValue) :
  astree_wf astree →
  (∀ formal, covers_formal astree vconstvars formal →
     vinitregister_value_list_to_ast_lvals vconstvars astree
     = Ok [mk_formal_lval formal])
  ∧ ((¬ ∃ formal, covers_formal astree vconstvars formal) →
     vinitregister_value_list_to_ast_lvals vconstvars astree
     = Ok (register_lvals vconstvars)).
Proof.
  intros [Hrange Hident].
  pose proof (formal_indices_spec vconstvars ∅ ∅ None) as Hspec.
  unfold vinitregister_value_list_to_ast_lvals.
  destruct (formal_indices astree vconstvars ∅ ∅ None) as [[A L] f].
  simpl in Hspec. destruct Hspec as (HA & HL & Hf).
  split.
  - intros formal (Hne & Hargs & Hsame & Hcover).
    rewrite (proj2 (forallb_argument_values _) Hargs).
    rewrite Forall_forall in Hsame.
    assert (A = {[argindex formal]}) as ->.
    { apply set_eq. intros x. rewrite HA, elem_of_singleton. split.
      - intros [?|(v & Hv & ->)]; [set_solver|]. by rewrite (Hsame v Hv).
      - intros ->. right. destruct vconstvars as [|v vs]; [done|].
        exists v. split; [left|]. symmetry. f_equal. apply Hsame. left. }
    rewrite size_singleton, bool_decide_eq_true_2 by done.
    assert (f = Some formal) as ->.
    { rewrite Hf. destruct (last vconstvars) as [v|] eqn:Hlast.
      - f_equal. apply Hsame. by apply last_Some_elem_of.
      - apply last_None in Hlast. done. }
    assert (L = set_seq 0 (length (arglocs formal))) as ->.
    { apply set_eq. intros i. rewrite HL, elem_of_set_seq.
      rewrite <- Hcover. split; [|lia].
      intros [?|?]; [set_solver|lia]. }
    by rewrite size_set_seq, bool_decide_eq_true_2.
  - intros Hnone.
    destruct (forallb is_argument_value vconstvars) eqn:Hargs; [|done].
    apply forallb_argument_values in Hargs.
    case_bool_decide as HsizeA; [|done].
    destruct f as [formal|].
    2:{ exfalso. destruct vconstvars as [|v vs].
        - assert (A = ∅) as -> by (apply set_eq; intros x; rewrite HA;
            split; [intros [?|(? & Hv & _)]; [done|by apply elem_of_nil in Hv]
                   |set_solver]).
          by rewrite size_empty in HsizeA.
        - by destruct (last (v :: vs)) eqn:Hl;
            [|apply last_None in Hl]. }
    case_bool_decide as HsizeL; [|done].
    exfalso. apply Hnone. exists formal.
    assert (vconstvars ≠ []) as Hne.
    { intros ->. simpl in Hf. done. }
    destruct (last vconstvars) as [vl|] eqn:Hlast;
      [|by apply last_None in Hlast].
    injection Hf as Hf. symmetry in Hf. apply last_Some_elem_of in Hlast.
    assert (∀ v, v ∈ vconstvars → formal_of astree v = formal) as Hsame.
    { intros v Hv. rewrite <- Hf. apply Hident.
      apply (size_singleton_inv A); [done|..]; apply HA; right; eauto. }
    assert (L = set_seq 0 (length (arglocs formal))) as HLeq.
    { apply set_subseteq_size_eq.
      - intros i Hi. apply HL in Hi as [?|(v & Hv & Hi)]; [set_solver|].
        apply elem_of_set_seq. split; [lia|]. simpl.
        rewrite <- (Hsame v Hv). by apply Hrange.
      - rewrite size_set_seq. lia. }
    repeat split; [done|done|by apply Forall_forall| |].
    + intros Hi. assert (i ∈ L) as HiL by (rewrite HLeq, elem_of_set_seq; lia).
      apply HL in HiL as [?|?]; [set_solver|done].
    + intros Hex. assert (i ∈ L) as HiL by (apply HL; by right).
      rewrite HLeq, elem_of_set_seq in HiL. lia.
Qed.

End Merge.

Lemma sample_astree_wf : astree_wf sample_astree.
Proof.
  split.
  - intros a i. simpl. repeat case_bool_decide; simpl;
      rewrite list_elem_of_singleton; intros ->; lia.
  - intros a a'. simpl. repeat case_bool_decide; simpl; try done;
      intros; subst; try done; congruence.
Qed.

Lemma register_list_merge_witness :
  astree_wf sample_astree
  ∧ (∀ formal, covers_formal sample_astree [reg_a0; reg_a1] formal →
       vinitregister_value_list_to_ast_lvals [reg_a0; reg_a1] sample_astree
       = Ok [mk_formal_lval formal])
  ∧ ((¬ ∃ formal, covers_formal sample_astree [reg_a0; reg_a1] formal) →
       vinitregister_value_list_to_ast_lvals [reg_a0; reg_a1] sample_astree
       = Ok (register_lvals [reg_a0; reg_a1])).
Proof.
  split; [exact sample_astree_wf|].
  apply (register_list_merge sample_astree [reg_a0; reg_a1]).
  exact sample_astree_wf.
Defined.

End Lowering.

(** ** Content equality across byte orders *)

Section ByteOrder.
Import Instruction.

Lemma string_pair_ind (P : string → Prop) :
  P "" → (∀ a, P (String a "")) →
  (∀ a b s, P s → P (String a (String b s))) →
  ∀ s, P s.
Proof.
  intros H0 H1 H2 s.
  assert (P s ∧ ∀ a, P (String a s)) as [? _]; [|done].
  induction s as [|b s [IH1 IH2]]; [by auto|].
  split; [apply IH2|]. intros a. by apply H2.
Qed.

Lemma join_byte_groups (s : string) : join (byte_groups s) = s.
Proof.
  induction s as [|a|a b s IH] using string_pair_ind; [done..|].
  cbn [byte_groups]. unfold join in *. simpl. by rewrite IH.
Qed.

Lemma byte_groups_join (gs : list string) :
  Forall (λ g, String.length g = 2%nat) gs → byte_groups (join gs) = gs.
Proof.
  induction 1 as [|g gs Hg _ IH]; [done|].
  destruct g as [|a [|b [|c g]]]; try discriminate.
  change (join (String a (String b "") :: gs))
    with (String a (String b (join gs))).
  cbn [byte_groups]. by rewrite IH.
Qed.

Lemma byte_groups_even (s : string) :
  Nat.even (String.length s) = true →
  Forall (λ g, String.length g = 2%nat) (byte_groups s).
Proof.
  induction s as [|a|a b s IH] using string_pair_ind;
    [constructor|discriminate|].
  intros Hs. cbn [byte_groups]. constructor; [done|]. by apply IH.
Qed.

(** Reversing the bytes twice gives the encoding back. *)
Lemma byte_reverse_involutive (s : string) :
  Nat.even (String.length s) = true → byte_reverse (byte_reverse s) = s.
Proof.
  intros Hs. unfold byte_reverse.
  rewrite byte_groups_join by (by apply Forall_reverse, byte_groups_even).
  by rewrite reverse_involutive, join_byte_groups.
Qed.

Context `{Hashlib}.

(** C4: for a mapped instruction pair and for a function pair, content
    equality compares the hash of A with the hash of B when the two binaries
    have one byte order, and with the hash of B's byte-reversed encoding when
    they differ; in the latter case an instruction B whose encoding is that
    of A with the bytes reversed compares equal. *)
Theorem md5_equality_by_endianness (app1 app2 : AppAccess.t)
    (i1 i2 : Instruction.t) (fn1 fn2 : Function.t) :
  let ira := InstructionRelationalAnalysis.__init__ app1 i1 app2 (Some i2) in
  let fra := FunctionRelationalAnalysis.__init__ app1 fn1 app2 fn2 in
  (AppAccess.is_big_endian app1 = AppAccess.is_big_endian app2 →
     InstructionRelationalAnalysis.is_md5_equal ira
     = Ok (str_eqb (md5_hexdigest (bytestring i1))
                   (md5_hexdigest (bytestring i2)))
     ∧ FunctionRelationalAnalysis.is_md5_equal fra
       = str_eqb (Function.md5 fn1) (Function.md5 fn2))
  ∧ (AppAccess.is_big_endian app1 ≠ AppAccess.is_big_endian app2 →
     InstructionRelationalAnalysis.is_md5_equal ira
     = Ok (str_eqb (md5_hexdigest (bytestring i1))
                   (md5_hexdigest (byte_reverse (bytestring i2))))
     ∧ FunctionRelationalAnalysis.is_md5_equal fra
       = str_eqb (Function.md5 fn1) (Function.rev_md5 fn2)
     ∧ (Nat.even (String.length (bytestring i1)) = true →
        bytestring i2 = byte_reverse (bytestring i1) →
        InstructionRelationalAnalysis.is_md5_equal ira = Ok true)).
Proof.
  simpl. unfold InstructionRelationalAnalysis.is_md5_equal,
    FunctionRelationalAnalysis.is_md5_equal,
    InstructionRelationalAnalysis.same_endianness,
    FunctionRelationalAnalysis.same_endianness. simpl.
  split.
  - intros ->. by rewrite eqb_reflx.
  - intros Hne. apply eqb_false_iff in Hne. rewrite Hne.
    unfold md5, rev_md5, rev_bytestring. repeat split.
    intros Heven ->. rewrite byte_reverse_involutive by done.
    unfold str_eqb. by rewrite bool_decide_eq_true_2.
Qed.

End ByteOrder.

Lemma md5_equality_by_endianness_witness :
  AppAccess.is_big_endian app_little ≠ AppAccess.is_big_endian app_big
  ∧ Nat.even (String.length (Instruction.bytestring instr_le)) = true
  ∧ Instruction.bytestring instr_be
    = Instruction.byte_reverse (Instruction.bytestring instr_le)
  ∧ @InstructionRelationalAnalysis.is_md5_equal sample_hashlib
      (InstructionRelationalAnalysis.__init__
         app_little instr_le app_big (Some instr_be))
    = Ok true.
Proof.
  split; [discriminate|]. split; [reflexivity|]. split; [reflexivity|].
  apply (@md5_equality_by_endianness sample_hashlib app_little app_big
           instr_le instr_be
           (sample_function "0x400100" "" "")
           (sample_function "0x400100" "" ""));
    [discriminate|reflexivity|reflexivity].
Defined.

(** ** Structural equivalence of two functions *)

Section StructuralEquivalence.
Import FunctionRelationalAnalysis.

Lemma traverse_ok {A B : Type} (f : A → result B) (g : A → B) (l : list A) :
  (∀ x, x ∈ l → f x = Ok (g x)) → traverse f l = Ok (g <$> l).
Proof.
  induction l as [|x l IH]; intros Hf; simpl; [done|].
  rewrite (Hf x) by left. simpl.
  rewrite IH by (intros y Hy; apply Hf; by right). done.
Qed.

Lemma address_value_hex (z : Z) : address_value (hex z) = z.
Proof. unfold address_value. by rewrite parse_hex. Qed.

Lemma shift_inj (d : Z) (s t : string) :
  canonical s → canonical t → shift d s = shift d t → s = t.
Proof.
  intros [z ->] [z' ->]. unfold shift. rewrite !address_value_hex.
  intros Heq. apply hex_inj in Heq. f_equal. lia.
Qed.

Lemma size_list_to_set_le `{Countable A} (l : list A) :
  (size (list_to_set l : gset A) ≤ length l)%nat.
Proof.
  induction l as [|x l IH].
  - change (size (∅ : gset A) ≤ 0)%nat. by rewrite size_empty.
  - change (size ({[x]} ∪ list_to_set l : gset A) ≤ S (length l))%nat.
    rewrite size_union_alt, size_singleton.
    assert (size (list_to_set l ∖ {[x]} : gset A)
            ≤ size (list_to_set l : gset A))%nat.
    { apply subseteq_size. intros y Hy.
      by apply elem_of_difference in Hy as [? _]. }
    lia.
Qed.

Lemma size_set_map_le `{Countable A, Countable B} (f : A → B) (X : gset A) :
  (size (set_map (D:=gset B) f X) ≤ size X)%nat.
Proof.
  unfold set_map. etrans; [apply size_list_to_set_le|].
  by rewrite length_fmap.
Qed.

Lemma size_zero_subseteq `{Countable A} (X Y : gset A) :
  size (X ∖ Y) = 0%nat ↔ X ⊆ Y.
Proof.
  rewrite size_empty_iff. split.
  - intros Hd x Hx. destruct (decide (x ∈ Y)); [done|]. exfalso.
    apply (not_elem_of_empty (C:=gset A) x), Hd. by apply elem_of_difference.
  - intros Hs. apply equiv_empty. intros x Hx.
    apply elem_of_difference in Hx as [Hx Hn]. exfalso. by apply Hn, Hs.
Qed.

Section WithAnalysis.
Context (self : t) (d : Z).
Hypothesis Hoffset : offset self = Ok d.

Lemma address2_align_canonical (s : string) :
  canonical s → address2_align self s = Ok (shift d s).
Proof.
  intros [z ->]. unfold address2_align, shift.
  rewrite int16_hex, address_value_hex. simpl. by rewrite Hoffset.
Qed.

Lemma edge2_align_canonical (e : string * string) :
  canonical e.1 → canonical e.2 → edge2_align self e = Ok (shift_edge d e).
Proof.
  intros H1 H2. unfold edge2_align.
  by rewrite !address2_align_canonical.
Qed.

(** With addresses in the form of [hex] the test raises nothing and is the
    conjunction of its four checks. *)
Lemma is_structurally_equivalent_checks :
  addresses_wf self →
  is_structurally_equivalent self
  = Ok (bool_decide (length (basic_blocks1 self) = length (basic_blocks2 self))
        && bool_decide (size (edges1 self) = size (edges2 self))
        && bool_decide
             (set_map (D:=gset string) (shift d)
                (list_to_set (keys (basic_blocks2 self)) : gset string)
              ⊆ list_to_set (keys (basic_blocks1 self)))
        && bool_decide
             (edges1 self
              ⊆ set_map (D:=gset (string * string)) (shift_edge d)
                  (edges2 self))).
Proof.
  intros (Hnd & Hcan & Hedges). unfold is_structurally_equivalent.
  destruct (bool_decide (length (basic_blocks1 self)
                         = length (basic_blocks2 self))
            && bool_decide (size (edges1 self) = size (edges2 self)));
    [|done]. cbn [andb].
  rewrite (traverse_ok _ (shift d)).
  2:{ intros x Hx. apply address2_align_canonical.
      by apply (proj1 (Forall_forall _ _) Hcan). }
  cbn [mbind result_bind].
  rewrite (list_to_set_fmap_L (C:=gset string) (D:=gset string)).
  rewrite (bool_decide_ext _ _ (size_zero_subseteq _ _)).
  case_bool_decide; [|done].
  rewrite (traverse_ok _ (shift_edge d)).
  2:{ intros e He. apply elem_of_elements in He.
      destruct (Hedges e He). by apply edge2_align_canonical. }
  cbn [mbind result_bind andb].
  by rewrite (bool_decide_ext _ _ (size_zero_subseteq _ _)).
Qed.

Lemma checks_iff_identical :
  addresses_wf self →
  (length (basic_blocks1 self) = length (basic_blocks2 self)
   ∧ size (edges1 self) = size (edges2 self)
   ∧ set_map (D:=gset string) (shift d)
       (list_to_set (keys (basic_blocks2 self)) : gset string)
     ⊆ list_to_set (keys (basic_blocks1 self))
   ∧ edges1 self
     ⊆ set_map (D:=gset (string * string)) (shift_edge d) (edges2 self))
  ↔ structurally_identical self d.
Proof.
  intros (Hnd & Hcan & Hedges). unfold structurally_identical. split.
  - intros (Hlen & Hsize & Hblocks & Hsub). repeat split; [done|done|..].
    + apply set_subseteq_size_eq; [done|].
      rewrite <- (list_to_set_fmap_L (C:=gset string) (D:=gset string)).
      rewrite (size_list_to_set (shift d <$> keys (basic_blocks2 self))).
      * etrans; [apply size_list_to_set_le|].
        unfold keys. rewrite !length_fmap. lia.
      * apply NoDup_fmap_2_strong; [|done].
        intros s t Hs Ht. apply shift_inj;
          by apply (proj1 (Forall_forall _ _) Hcan).
    + symmetry. apply set_subseteq_size_eq; [done|].
      etrans; [apply size_set_map_le|]. lia.
  - intros (Hlen & Hsize & Hblocks & Hsub).
    repeat split; [done|done|by rewrite Hblocks|by rewrite Hsub].
Qed.

Lemma block_mapping_loop_spec (bs : list string) (m : dict string) :
  (∀ a, a ∈ bs → ∃ n, int16 a = Ok n) →
  ∃ m', block_mapping_loop self bs m = Ok m'
        ∧ (∀ a, a ∈ bs → ∃ n, int16 a = Ok n ∧ get m' a = Some (hex (n + d)))
        ∧ (∀ k, k ∉ bs → get m' k = get m k).
Proof.
  revert m. induction bs as [|b bs IH]; intros m Hbs; simpl.
  - exists m. split; [done|]. split; [|done].
    intros a Ha. by apply elem_of_nil in Ha.
  - destruct (Hbs b) as [n Hn]; [left|]. rewrite Hn, Hoffset. simpl.
    destruct (IH (setitem m b (hex (n + d)))) as (m' & Hm' & Hin & Hout).
    { intros a Ha. apply Hbs. by right. }
    exists m'. split; [done|]. split.
    + intros a Ha. destruct (decide (a ∈ bs)) as [Hbs'|Hbs']; [by apply Hin|].
      apply elem_of_cons in Ha as [->|Ha]; [|done].
      exists n. split; [done|]. rewrite (Hout b Hbs'), get_setitem.
      unfold str_eqb. by rewrite bool_decide_eq_true_2.
    + intros k Hk. apply not_elem_of_cons in Hk as [Hkb Hk].
      rewrite (Hout k Hk), get_setitem. unfold str_eqb.
      by rewrite bool_decide_eq_false_2.
Qed.


End WithAnalysis.


Lemma fra_moved_wf : addresses_wf fra_moved.
Proof.
  split; [|split].
  - apply (bool_decide_unpack _). by vm_compute.
  - repeat constructor; apply canonicalb_spec; reflexivity.
  - intros e He. unfold edges2 in He. cbn [fra_moved __init__ fn2 Function.cfg fn_at_2000 Cfg.edges_as_set] in He.
    apply elem_of_singleton in He as ->.
    split; apply canonicalb_spec; reflexivity.
Qed.



End StructuralEquivalence.

(** ** Relational analysis of two binaries *)

Section BinaryPair.
Import RelationalAnalysis.
Context `{CallgraphMatcher}.

Lemma sorted_difference_elem (l1 l2 : list string) (a : string) :
  a ∈ sorted_difference l1 l2 ↔ a ∈ l1 ∧ a ∉ l2.
Proof.
  unfold sorted_difference.
  rewrite sorted_elem, elem_of_elements, elem_of_difference.
  by rewrite !elem_of_list_to_set.
Qed.

Lemma get_pair_differences (ps : list (string * string)) (r : dict string)
    (k : string) :
  k ∉ ps.*1 → get (pair_differences ps r) k = get r k.
Proof.
  revert r. induction ps as [|[a b] ps IH]; intros r Hk; simpl; [done|].
  simpl in Hk. apply not_elem_of_cons in Hk as [Hka Hk].
  rewrite IH by done. rewrite get_setitem. unfold str_eqb.
  by rewrite bool_decide_eq_false_2.
Qed.

Lemma get_map_remaining (fs : list string) (r : dict string) (k : string) :
  get (map_remaining fs r) k
  = match get r k with
    | Some v => Some v
    | None => if bool_decide (k ∈ fs) then Some k else None
    end.
Proof.
  revert r. induction fs as [|f fs IH]; intros r; simpl.
  - by destruct (get r k).
  - unfold mem. destruct (get r f) as [v|] eqn:Hf; simpl.
    + rewrite IH. destruct (get r k) as [w|] eqn:Hk; [done|].
      assert (k ≠ f) by congruence.
      rewrite (bool_decide_ext (k ∈ f :: fs) (k ∈ fs)); [done|].
      rewrite elem_of_cons. split; [by intros [?|?]|by right].
    + rewrite IH, get_setitem. unfold str_eqb.
      destruct (decide (k = f)) as [->|Hkf].
      * rewrite (bool_decide_eq_true_2 (f = f)) by done. rewrite Hf.
        by rewrite (bool_decide_eq_true_2 (f ∈ f :: fs)) by left.
      * rewrite (bool_decide_eq_false_2 (k = f)) by done.
        destruct (get r k); [done|].
        rewrite (bool_decide_ext (k ∈ f :: fs) (k ∈ fs)); [done|].
        rewrite elem_of_cons. split; [by intros [?|?]|by right].
Qed.

Lemma zip_fst_elem (l1 l2 : list string) (a : string) :
  a ∈ (zip l1 l2).*1 → a ∈ l1.
Proof.
  revert l2. induction l1 as [|x l1 IH]; intros [|y l2]; simpl;
    try (by intros ?%elem_of_nil).
  rewrite !elem_of_cons. intros [->|Ha]; [by left|right; eauto].
Qed.

(** C2, as stated, fails: with equally many functions on both sides a
    non-empty user mapping is not the computed mapping. *)
Lemma usermapping_not_verbatim :
  ¬ ∀ (cg : CallgraphMatcher) (self : t),
      _functionmapping self = [] → usermapping self ≠ [] →
      (@function_mapping cg self).1 = usermapping self.
Proof.
  intros Hclaim.
  specialize (Hclaim sample_matcher ra_usermapped eq_refl).
  assert ((@function_mapping sample_matcher ra_usermapped).1
          = [("0x1000", "0x1000"); ("0x2000", "0x2000")]) as Hm
    by (by vm_compute).
  rewrite Hm in Hclaim. by specialize (Hclaim ltac:(done)).
Qed.

(** C2, amended: [function_mapping] returns the memoized mapping verbatim
    once it is non-empty. On a fresh analysis the user mapping is not
    consulted when the two address lists have equal length: the result is
    the direct mapping, the same for every user mapping, and sends every
    address of both lists to itself. When the lengths differ the result is
    the mapping of the call graph matcher, which receives the user mapping
    as its seed. The result is left in the memo field. *)
Theorem function_mapping_first_access (app1 app2 : AppAccess.t)
    (f1 f2 : list string) (um : dict string) (cs : list string)
    (pe : dict string) :
  let self := __init__ app1 app2 f1 f2 um cs pe in
  (fncount1 self = fncount2 self →
     (function_mapping self).1
     = (function_mapping (__init__ app1 app2 f1 f2 [] cs pe)).1
     ∧ ∀ a, a ∈ faddrs1 self → a ∈ faddrs2 self →
         get (function_mapping self).1 a = Some a)
  ∧ (fncount1 self ≠ fncount2 self →
     (function_mapping self).1
     = callgraph_function_mapping app1 (faddrs1 self) app2 (faddrs2 self) um)
  ∧ _functionmapping (function_mapping self).2 = (function_mapping self).1
  ∧ ∀ ra, _functionmapping ra ≠ [] →
      function_mapping ra = (_functionmapping ra, ra).
Proof.
  intros self. split; [|split; [|split]].
  - intros Hcount. split.
    + unfold function_mapping. simpl.
      change (fncount1 (__init__ app1 app2 f1 f2 [] cs pe))
        with (fncount1 self).
      change (fncount2 (__init__ app1 app2 f1 f2 [] cs pe))
        with (fncount2 self).
      by rewrite !bool_decide_eq_true_2.
    + intros a Ha1 Ha2. unfold function_mapping. simpl.
      rewrite bool_decide_eq_true_2 by done. simpl.
      rewrite get_map_remaining, get_pair_differences.
      * simpl. by rewrite bool_decide_eq_true_2.
      * intros Hin%zip_fst_elem.
        apply sorted_difference_elem in Hin as [_ Hn]. done.
  - intros Hcount. unfold function_mapping. simpl.
    by rewrite bool_decide_eq_false_2.
  - unfold function_mapping. simpl. by repeat case_bool_decide.
  - intros ra Hne. unfold function_mapping.
    rewrite bool_decide_eq_true_2; [done|].
    destruct (_functionmapping ra); [done|simpl; lia].
Qed.

End BinaryPair.

Lemma function_mapping_first_access_witness :
  let self := ra_usermapped in
  RelationalAnalysis.fncount1 self = RelationalAnalysis.fncount2 self
  ∧ (@RelationalAnalysis.function_mapping sample_matcher self).1
    = (@RelationalAnalysis.function_mapping sample_matcher
         (RelationalAnalysis.__init__ app_original app_patched [] [] [] [] [])).1.
Proof.
  split; [reflexivity|].
  exact (proj1 (proj1 (@function_mapping_first_access sample_matcher
                         app_original app_patched [] []
                         [("0x1000", "0x2000")] [] []) eq_refl)).
Defined.

(** ** The changed functions of a binary pair *)

Section FunctionsChanged.
Import RelationalAnalysis.
Context `{CallgraphMatcher}.

Lemma function_mapping_fields (self : t) :
  app1 (function_mapping self).2 = app1 self
  ∧ app2 (function_mapping self).2 = app2 self
  ∧ _functionanalyses (function_mapping self).2 = _functionanalyses self.
Proof.
  unfold function_mapping. by repeat case_bool_decide.
Qed.

(** The loop of [function_analyses], when it returns, has stored nothing. *)
Lemma function_analyses_loop_fields (fs : list string) (self self' : t) :
  function_analyses_loop fs self = Ok self' →
  app1 self' = app1 self ∧ app2 self' = app2 self
  ∧ _functionanalyses self' = _functionanalyses self.
Proof.
  revert self. induction fs as [|f fs IH]; intros self; simpl.
  - by intros [= <-].
  - pose proof (function_mapping_fields self) as (Ha1 & Ha2 & Hfa).
    destruct (function_mapping self) as [fm self1]. simpl in Ha1, Ha2, Hfa.
    destruct (mem f fm).
    + destruct (function_mapping self1) as [fm2 self2].
      destruct (getitem fm2 f); simpl; [|done].
      destruct (AppAccess.function (app1 self2) f); simpl; [|done].
      by destruct (AppAccess.function (app2 self2) _).
    + intros Hrec. apply IH in Hrec as (-> & -> & ->). done.
Qed.

Lemma function_analyses_fields (self self' : t)
    (fas : dict FunctionRelationalAnalysis.t) :
  function_analyses self = Ok (fas, self') →
  fas = _functionanalyses self
  ∧ app1 self' = app1 self ∧ app2 self' = app2 self.
Proof.
  unfold function_analyses. case_bool_decide as Hmemo.
  - destruct (function_analyses_loop _ _) as [s|] eqn:Hloop; simpl; [|done].
    intros [= <- <-].
    by apply function_analyses_loop_fields in Hloop as (-> & -> & ->).
  - by intros [= <- <-].
Qed.

(** Whenever [functions_changed] returns, it returns the empty list and has
    logged nothing. *)
Lemma functions_changed_returns_nothing (self self' : t)
    (result : list string) (log : list warning) :
  functions_changed self = Ok (result, log, self') →
  result = [] ∧ log = [].
Proof.
  unfold functions_changed.
  destruct (function_analyses self) as [[fas s]|]; simpl; [|done].
  destruct fas as [|[faddr fra] fas]; simpl; [|done].
  destruct (md5s1 s) as [|[faddr1 md51] items]; simpl; [|done].
  by intros [= <- <- _].
Qed.

(** C1 at a concrete pair: both binaries list 0x2000 in their md5 tables
    with different hashes and the analysis is restricted to 0x1000, so
    0x2000 is changed and not analysed. [functions_changed] does not return
    it: the call raises [TypeError] while the analysis of 0x1000 is built.
    For every binary pair, when [functions_changed] returns at all, it
    returns the empty list and has logged no warning. *)
Theorem functions_changed_misses_unanalysed :
  get (md5s1 ra_restricted) "0x2000" = Some "bb"
  ∧ get (md5s2 ra_restricted) "0x2000" = Some "bc"
  ∧ ("0x2000" ∉ faddrs1 ra_restricted)
  ∧ (∃ msg, functions_changed ra_restricted = Raise (TypeError msg))
  ∧ ∀ (self self' : t) (result : list string) (log : list warning),
      functions_changed self = Ok (result, log, self') →
      result = [] ∧ log = [].
Proof.
  split; [reflexivity|]. split; [reflexivity|]. split.
  { apply (bool_decide_unpack _). by vm_compute. }
  split; [eexists; by vm_compute|].
  apply functions_changed_returns_nothing.
Qed.

End FunctionsChanged.

(** ** Symbolic operands in the simulation steps *)

Section SymbolicOperands.
Import Sim.

Lemma get_rhs_rt_symbol :
  sample_rhs state_symbol_in_rt "0x400100" "a2" = SimSymbol "x"
  ∧ sample_rhs state_symbol_in_rt "0x400100" "a1" = mk_simvalue 1.
Proof. split; by vm_compute. Qed.

Lemma get_rhs_rs_symbol :
  sample_rhs state_symbol_in_rs "0x400100" "a1" = SimSymbol "x"
  ∧ sample_rhs state_symbol_in_rs "0x400100" "a2" = mk_simvalue 1.
Proof. split; by vm_compute. Qed.

(** C8, as stated, fails: an addu step whose operand [rt] holds a symbol
    raises nothing. *)
Lemma symbol_in_rt_not_signalled :
  ¬ ∀ (ops : SimOps) (S Lhs : Type) (state : SimState S Lhs)
      (self : MIPSOpcode) (iaddr : string) (simstate : S),
      is_symbol (get_rhs simstate iaddr (src1_operand self)) = true
      ∨ is_symbol (get_rhs simstate iaddr (src2_operand self)) = true →
      raises_symbolic_expression
        (MIPSAddUnsigned.simulate self iaddr simstate).
Proof.
  intros Hclaim.
  destruct (Hclaim sample_simops SampleState string sample_simstate
              addu_a0_a1_a2 "0x400100" state_symbol_in_rt)
    as (iaddr & dstop & expr & Hraise).
  - right. by vm_compute.
  - unfold MIPSAddUnsigned.simulate in Hraise.
    change (get_rhs state_symbol_in_rt "0x400100"
              (src2_operand addu_a0_a1_a2))
      with (sample_rhs state_symbol_in_rt "0x400100" "a2") in Hraise.
    destruct get_rhs_rt_symbol as [Hrt _]. rewrite Hrt in Hraise.
    discriminate.
Qed.

Context `{SimOps} {S Lhs : Type} `{SimState S Lhs}.

(** C8, amended. A subu step raises the symbolic-expression signal exactly
    when an operand is a symbol and no operand is undefined; with an
    undefined operand it writes the undefined value and raises nothing. An
    addu step raises the signal exactly when [rs] holds a symbol and [rt]
    does not; a symbol in [rt] is propagated: a new symbol is written to the
    destination and nothing is raised. A ror step with an operand that is
    not a literal raises the general simulation error, not the
    symbolic-expression signal. *)
Theorem symbolic_operand_steps (self : MIPSOpcode) (rot : X86Opcode)
    (iaddr : string) (simstate : S) :
  let sub1val := rhs simstate iaddr (src1_operand self) in
  let sub2val := rhs simstate iaddr (src2_operand self) in
  let src1val := get_rhs simstate iaddr (src1_operand self) in
  let src2val := get_rhs simstate iaddr (src2_operand self) in
  let srcval := get_rhs simstate iaddr (x86_src_operand rot) in
  let dstval := get_rhs simstate iaddr (x86_dst_operand rot) in
  (is_undefined sub1val = false → is_undefined sub2val = false →
   is_symbol sub1val = true ∨ is_symbol sub2val = true →
     MIPSSubtractUnsigned.simulate self iaddr simstate
     = Raise (CHBSymbolicExpression iaddr (dst_operand self)
                (str_value sub1val ++ " - " ++ str_value sub2val)))
  ∧ (is_undefined sub1val = true ∨ is_undefined sub2val = true →
     MIPSSubtractUnsigned.simulate self iaddr simstate
     = Ok (assign_and_advance increment_programcounter self iaddr simstate
             sub1val sub2val simUndefinedDW))
  ∧ (is_symbol src2val = true →
     MIPSAddUnsigned.simulate self iaddr simstate
     = Ok (assign_and_advance increment_program_counter self iaddr simstate
             src1val src2val
             (mk_symbol (symbol_name src2val ++ ":add "
                         ++ str_value src1val))))
  ∧ (is_symbol src2val = false → is_symbol src1val = true →
     MIPSAddUnsigned.simulate self iaddr simstate
     = Raise (CHBSymbolicExpression iaddr (dst_operand self)
                (str_value src1val ++ " + " ++ str_value src2val)))
  ∧ (raises_symbolic_expression
       (MIPSAddUnsigned.simulate self iaddr simstate)
     ↔ is_symbol src1val = true ∧ is_symbol src2val = false)
  ∧ (raises_symbolic_expression
       (MIPSSubtractUnsigned.simulate self iaddr simstate)
     ↔ is_undefined sub1val = false ∧ is_undefined sub2val = false
       ∧ (is_symbol sub1val = true ∨ is_symbol sub2val = true))
  ∧ (is_literal dstval = false ∨ is_literal srcval = false →
     X86RotateRight.simulate rot iaddr simstate
     = Raise (CHBSimError iaddr
                ("Bitwise_ror not yet implemented for "
                 ++ x86_dst_operand rot ++ ":" ++ str_value dstval ++ ", "
                 ++ x86_src_operand rot ++ ":" ++ str_value srcval))
     ∧ ¬ raises_symbolic_expression
           (X86RotateRight.simulate rot iaddr simstate)).
Proof.
  intros sub1val sub2val src1val src2val srcval dstval.
  split; [|split; [|split; [|split; [|split; [|split]]]]].
  - intros Hu1 Hu2 Hsym. unfold MIPSSubtractUnsigned.simulate.
    fold sub1val sub2val. rewrite Hu1, Hu2. simpl.
    by destruct Hsym as [-> | ->]; rewrite ?orb_true_r.
  - intros Hu. unfold MIPSSubtractUnsigned.simulate.
    fold sub1val sub2val.
    by destruct Hu as [-> | ->]; rewrite ?orb_true_r.
  - intros Hs. unfold MIPSAddUnsigned.simulate. fold src1val src2val.
    by rewrite Hs.
  - intros Hs2 Hs1. unfold MIPSAddUnsigned.simulate. fold src1val src2val.
    by rewrite Hs2, Hs1.
  - unfold MIPSAddUnsigned.simulate. fold src1val src2val. cbv zeta.
    destruct (is_symbol src2val) eqn:Hs2.
    { split; [intros (? & ? & ? & ?); discriminate|by intros [_ ?]]. }
    destruct (is_symbol src1val) eqn:Hs1; cbn [orb].
    { split; [done|]. intros _. by eexists _, _, _. }
    split; [|by intros [? _]].
    intros (? & ? & ? & Hraise). exfalso.
    repeat match type of Hraise with
           | context [if ?b then _ else _] => destruct b
           end; discriminate.
  - unfold MIPSSubtractUnsigned.simulate. fold sub1val sub2val. cbv zeta.
    destruct (is_undefined sub1val) eqn:Hu1; cbn [orb].
    { split; [intros (? & ? & ? & ?); discriminate|by intros [? _]]. }
    destruct (is_undefined sub2val) eqn:Hu2; cbn [orb].
    { split; [intros (? & ? & ? & ?); discriminate|by intros (_ & ? & _)]. }
    destruct (is_symbol sub1val || is_symbol sub2val) eqn:Hsym.
    { split; [|intros _; by eexists _, _, _].
      intros _. split; [done|]. split; [done|].
      by apply orb_true_iff. }
    split.
    + intros (? & ? & ? & Hraise). exfalso.
      repeat match type of Hraise with
             | context [if ?b then _ else _] => destruct b
             end; discriminate.
    + intros (_ & _ & Hor). apply orb_true_iff in Hor. congruence.
  - intros Hlit.
    assert (X86RotateRight.simulate rot iaddr simstate
            = Raise (CHBSimError iaddr
                ("Bitwise_ror not yet implemented for "
                 ++ x86_dst_operand rot ++ ":" ++ str_value dstval ++ ", "
                 ++ x86_src_operand rot ++ ":" ++ str_value srcval))) as Hr.
    { unfold X86RotateRight.simulate. fold srcval dstval.
      by destruct Hlit as [-> | ->]; rewrite ?andb_false_r. }
    split; [done|]. rewrite Hr. intros (? & ? & ? & ?). discriminate.
Qed.

End SymbolicOperands.

Lemma symbolic_operand_steps_witness :
  Sim.is_symbol (sample_rhs state_symbol_in_rs "0x400100" "a1") = true
  ∧ Sim.is_symbol (sample_rhs state_symbol_in_rs "0x400100" "a2") = false
  ∧ raises_symbolic_expression
      (@MIPSAddUnsigned.simulate sample_simops _ _ sample_simstate
         addu_a0_a1_a2 "0x400100" state_symbol_in_rs).
Proof.
  split; [by vm_compute|]. split; [by vm_compute|].
  eexists _, _, _.
  apply (proj1 (proj2 (proj2 (proj2
           (@symbolic_operand_steps sample_simops _ _ sample_simstate
              addu_a0_a1_a2 ror_eax_cl "0x400100" state_symbol_in_rs)))));
    by vm_compute.
Defined.

(** * Further properties of the sources *)

(** ** Instruction pairs *)

Section InstructionPairs.
Context `{Hashlib}.
Import InstructionRelationalAnalysis.

Lemma is_md5_equal_mapped (app1 app2 : AppAccess.t) (i1 i2 : Instruction.t) :
  is_md5_equal (__init__ app1 i1 app2 (Some i2))
  = Ok (str_eqb (Instruction.md5 i1)
          (if Bool.eqb (AppAccess.is_big_endian app1)
                       (AppAccess.is_big_endian app2)
           then Instruction.md5 i2 else Instruction.rev_md5 i2)).
Proof.
  unfold is_md5_equal, same_endianness. simpl.
  by destruct (Bool.eqb _ _).
Qed.

Lemma changes_mapped (app1 app2 : AppAccess.t) (i1 i2 : Instruction.t)
    (b : bool) :
  is_md5_equal (__init__ app1 i1 app2 (Some i2)) = Ok b →
  changes (__init__ app1 i1 app2 (Some i2))
  = Ok ((if bool_decide (Instruction.iaddr i1 = Instruction.iaddr i2)
         then [] else ["address"])
        ++ (if b then [] else ["bytes"])
        ++ (if bool_decide (Instruction.annotation i1
                            = Instruction.annotation i2)
            then [] else ["semantics"]))%list.
Proof.
  intros Hb. unfold changes. rewrite Hb.
  unfold same_address, has_different_annotation, str_eqb. simpl.
  by repeat case_bool_decide; destruct b.
Qed.

(** X1: For a mapped pair [changes] raises nothing; it lists "address" exactly
    when the two addresses differ, "bytes" exactly when the hashes differ
    (after the byte-order dispatch) and "semantics" exactly when the
    annotations differ, and [is_changed] is false exactly when none of the
    three differs. *)
Theorem changes_of_mapped_pair (app1 app2 : AppAccess.t)
    (i1 i2 : Instruction.t) :
  let ira := __init__ app1 i1 app2 (Some i2) in
  ∃ c, changes ira = Ok c
    ∧ ("address" ∈ c ↔ Instruction.iaddr i1 ≠ Instruction.iaddr i2)
    ∧ ("bytes" ∈ c ↔ is_md5_equal ira = Ok false)
    ∧ ("semantics" ∈ c
       ↔ Instruction.annotation i1 ≠ Instruction.annotation i2)
    ∧ (is_changed ira = Ok false
       ↔ Instruction.iaddr i1 = Instruction.iaddr i2
         ∧ is_md5_equal ira = Ok true
         ∧ Instruction.annotation i1 = Instruction.annotation i2).
Proof.
  intros ira. unfold ira, is_changed.
  pose proof (is_md5_equal_mapped app1 app2 i1 i2) as Hmd5.
  rewrite (changes_mapped _ _ _ _ _ Hmd5), Hmd5.
  eexists. split; [reflexivity|].
  destruct (str_eqb _ _); repeat case_bool_decide; simpl;
    rewrite ?elem_of_cons, ?elem_of_nil;
    repeat split; intros; try done;
    repeat match goal with
           | Hx : _ ∨ _ |- _ => destruct Hx
           | Hx : _ ∧ _ |- _ => destruct Hx
           end; try done; auto.
Qed.

(** X2: An instruction compared with itself, in binaries of one byte order, is
    unchanged. *)
Theorem same_instruction_unchanged (app1 app2 : AppAccess.t)
    (i : Instruction.t) :
  AppAccess.is_big_endian app1 = AppAccess.is_big_endian app2 →
  changes (__init__ app1 i app2 (Some i)) = Ok []
  ∧ is_changed (__init__ app1 i app2 (Some i)) = Ok false.
Proof.
  intros Hend. unfold is_changed.
  pose proof (is_md5_equal_mapped app1 app2 i i) as Hmd5.
  rewrite Hend, eqb_reflx in Hmd5. unfold str_eqb in Hmd5.
  rewrite bool_decide_eq_true_2 in Hmd5 by done.
  rewrite (changes_mapped _ _ _ _ _ Hmd5).
  by rewrite !bool_decide_eq_true_2.
Qed.

End InstructionPairs.

Lemma same_instruction_unchanged_witness :
  @InstructionRelationalAnalysis.is_changed sample_hashlib
    (InstructionRelationalAnalysis.__init__ app_little instr_le app_little
       (Some instr_le))
  = Ok false.
Proof.
  apply (@same_instruction_unchanged sample_hashlib app_little app_little
           instr_le).
  reflexivity.
Defined.

Section SemanticEquality.
Import InstructionRelationalAnalysis.

(** X3: [is_semantically_equal] holds exactly when the pair is mapped and both
    instructions load a string pointer with the same two components; the
    second pattern, the same call with the same arguments, never
    contributes, and an unmapped instruction is never semantically equal. *)
Theorem semantic_equality_is_same_string (self : t) :
  calls_same_function_with_same_args self = false
  ∧ (is_semantically_equal self = Ok true
     ↔ ∃ i2 s1 s2,
         _instr2 self = Some i2
         ∧ Instruction.string_pointer_loaded (instr1 self) = Some s1
         ∧ Instruction.string_pointer_loaded i2 = Some s2
         ∧ s1 = s2)
  ∧ (_instr2 self = None → is_semantically_equal self = Ok false).
Proof.
  split; [done|]. unfold is_semantically_equal, loads_same_string,
    is_mapped, instr2, calls_same_function_with_same_args, str_eqb.
  destruct (_instr2 self) as [i2|]; simpl.
  2:{ split; [|done]. split; [done|]. by intros (? & ? & ? & ? & _). }
  split; [|done].
  destruct (Instruction.string_pointer_loaded (instr1 self))
    as [[a1 b1]|] eqn:Hs1; simpl.
  2:{ split; [done|]. by intros (? & ? & ? & _ & ? & _). }
  destruct (Instruction.string_pointer_loaded i2) as [[a2 b2]|] eqn:Hs2;
    simpl.
  2:{ split; [done|]. intros (? & ? & ? & [= <-] & _ & ? & _). congruence. }
  rewrite orb_false_r. split.
  - intros [= Hb]. apply andb_true_iff in Hb as [Ha Hb].
    apply bool_decide_eq_true in Ha, Hb. subst.
    by eexists _, _, _.
  - intros (? & ? & ? & [= <-] & [= <-] & Hs2' & <-).
    rewrite Hs2 in Hs2'. injection Hs2' as -> ->.
    by rewrite !bool_decide_eq_true_2.
Qed.

End SemanticEquality.

(** ** Basic blocks: lookups, tags and byte order *)

Section BlockLookups.
Import BasicBlock.

(** A block without instructions has no last address: [lastaddr],
    [real_lastaddr], [last_instruction] and [has_return] raise the
    [IndexError] of the empty list. *)
Theorem empty_block_has_no_last (baddr : string) :
  let b := mk baddr [] in
  lastaddr b = Raise (IndexError "list index out of range")
  ∧ real_lastaddr b = Raise (IndexError "list index out of range")
  ∧ last_instruction b = Raise (IndexError "list index out of range")
  ∧ has_return b = Raise (IndexError "list index out of range").
Proof. done. Qed.

(** X4: [instruction] returns the instruction stored under an address exactly
    when [has_instruction] holds for it, and raises the not-found
    [CHBError] naming the address otherwise. *)
Theorem instruction_lookup (self : t) (iaddr : string) :
  (has_instruction self iaddr = true
   ↔ ∃ i, instruction self iaddr = Ok i)
  ∧ (∀ i, instruction self iaddr = Ok i
          ↔ get (instructions self) iaddr = Some i)
  ∧ (has_instruction self iaddr = false
     ↔ instruction self iaddr
       = Raise (CHBError ("Instruction " ++ iaddr ++ " not found"))).
Proof.
  unfold has_instruction, instruction, mem.
  destruct (get (instructions self) iaddr) as [i|].
  - split; [split; [eauto|done]|].
    split; [intros i'; split; congruence|done].
  - split; [split; [done|by intros [? ?]]|].
    split; [intros i'; split; done|done].
Qed.

Lemma str_in_underscore_cons (c : ascii) (s : string) :
  str_in "_" (String c s) = Ascii.eqb c "_" || str_in "_" s.
Proof.
  cbn [str_in String.prefix].
  destruct (ascii_dec "_" c) as [<-|Hne].
  - by destruct s.
  - destruct (Ascii.eqb_spec c "_") as [->|_]; [done|]. done.
Qed.

Lemma last_segment_untagged (a : string) :
  str_in "_" a = false → last_segment a = a.
Proof.
  destruct a as [|c a]; [done|]. rewrite str_in_underscore_cons.
  intros [Hc Ha]%orb_false_iff. cbn [last_segment]. by rewrite Ha, Hc.
Qed.

Lemma last_segment_tagged (tag a : string) :
  str_in "_" a = false → last_segment (tag ++ "_" ++ a) = a.
Proof.
  intros Ha. induction tag as [|c tag IH].
  - change ("" ++ "_" ++ a) with (String "_" a).
    cbn [last_segment]. by rewrite Ha.
  - change (String c tag ++ "_" ++ a) with (String c (tag ++ "_" ++ a)).
    cbn [last_segment].
    assert (str_in "_" (tag ++ "_" ++ a) = true) as ->; [|done].
    apply str_in_spec. by exists tag, a.
Qed.

(** X5: The real address of a block: every address that does not start
    with [F] is returned as it is, whatever it holds, and from a tagged
    address [F<tag>_<a>] the part [a] after the last underscore is
    recovered. *)
Theorem real_baddr_strips_tag (insts : dict Instruction.t) :
  (∀ a, startswith a "F" = false → real_baddr (mk a insts) = a)
  ∧ (∀ tag a, str_in "_" a = false →
       real_baddr (mk ("F" ++ tag ++ "_" ++ a) insts) = a).
Proof.
  unfold real_baddr. split.
  - intros a Hf. simpl. by rewrite Hf.
  - intros tag a Ha.
    change (baddr (mk ("F" ++ tag ++ "_" ++ a) insts))
      with (String "F" tag ++ "_" ++ a).
    rewrite last_segment_tagged by done.
    by destruct tag.
Qed.

Lemma real_baddr_strips_tag_witness :
  real_baddr block_inlined = "0x400200"
  ∧ real_baddr (mk "0x4000_1" []) = "0x4000_1".
Proof.
  split.
  - exact (proj2 (real_baddr_strips_tag []) "0x401000" "0x400200" eq_refl).
  - exact (proj1 (real_baddr_strips_tag []) "0x4000_1" eq_refl).
Defined.

End BlockLookups.

Section BlockByteOrder.
Context `{Hashlib}.
Import BasicBlock.

(** X6: Two blocks whose instructions correspond one to one, each encoding of B
    being the byte-reversed encoding of A (of even length), have
    [md5(A) = rev_md5(B)]: the byte-order dispatch that compares instructions
    also compares blocks. *)
Theorem block_md5_across_byte_order (b1 b2 : t) :
  Forall2 (λ i1 i2,
             Nat.even (String.length (Instruction.bytestring i1)) = true
             ∧ Instruction.bytestring i2
               = Instruction.byte_reverse (Instruction.bytestring i1))
          (values (instructions b1)) (values (instructions b2)) →
  md5 b1 = rev_md5 b2.
Proof.
  unfold md5, rev_md5. intros Hall. f_equal. f_equal.
  induction Hall as [|i1 i2 l1 l2 [Heven Hrev] _ IH]; [done|].
  simpl. f_equal; [|done].
  unfold Instruction.rev_bytestring. rewrite Hrev.
  by rewrite byte_reverse_involutive.
Qed.

End BlockByteOrder.

Lemma block_md5_across_byte_order_witness :
  @BasicBlock.md5 sample_hashlib block_le
  = @BasicBlock.rev_md5 sample_hashlib block_be.
Proof.
  apply (@block_md5_across_byte_order sample_hashlib block_le block_be).
  repeat constructor.
Defined.

(** ** Function pairs: the test beyond well-formed addresses *)

Section StructuralTest.
Import FunctionRelationalAnalysis.

(** X7: When the block counts or the edge counts differ the test is false, and
    no address is parsed: this holds for every form of address. *)
Theorem counts_differ_not_equivalent (self : t) :
  length (basic_blocks1 self) ≠ length (basic_blocks2 self)
  ∨ size (edges1 self) ≠ size (edges2 self) →
  is_structurally_equivalent self = Ok false
  ∧ (_blockmapping self = [] → block_mapping self = Ok ([], self)).
Proof.
  intros Hne.
  assert (is_structurally_equivalent self = Ok false) as Hfalse.
  { unfold is_structurally_equivalent.
    destruct Hne as [Hne|Hne]; rewrite (bool_decide_eq_false_2 _ Hne);
      by rewrite ?andb_false_r. }
  split; [done|]. intros Hfresh. unfold block_mapping.
  by rewrite Hfresh, Hfalse.
Qed.

Lemma counts_differ_not_equivalent_witness :
  is_structurally_equivalent
    (__init__ app_little fn_at_1000 app_little
       (sample_function "0x2000" "aa" "aa"))
  = Ok false.
Proof.
  apply (counts_differ_not_equivalent
           (__init__ app_little fn_at_1000 app_little
              (sample_function "0x2000" "aa" "aa"))).
  left. discriminate.
Defined.

Lemma traverse_raise {A B : Type} (f : A → result B) (l : list A)
    (P : exn → Prop) :
  (∀ x e, f x = Raise e → P e) →
  (∃ x e, x ∈ l ∧ f x = Raise e) →
  ∃ e, traverse f l = Raise e ∧ P e.
Proof.
  intros HP. induction l as [|x l IH]; intros (y & e & Hy & He).
  - by apply elem_of_nil in Hy.
  - simpl. destruct (f x) as [v|e'] eqn:Hx; simpl.
    + apply elem_of_cons in Hy as [->|Hy]; [congruence|].
      destruct IH as (e'' & -> & ?); [by eauto|]. by eauto.
    + eauto.
Qed.

Lemma address2_align_raises (self : t) (s : string) (e : exn) :
  address2_align self s = Raise e → ∃ msg, e = ValueError msg.
Proof.
  unfold address2_align, offset, int16.
  destruct (parse s); simpl; [|intros [= <-]; by eauto].
  destruct (parse (faddr2 self)); simpl; [|intros [= <-]; by eauto].
  destruct (parse (faddr1 self)); simpl; [done|intros [= <-]; by eauto].
Qed.

(** X8: With equal counts, a block address of B that is no hexadecimal number
    (the tagged address of an inlined block, say) makes the test raise a
    [ValueError]; it does not answer false. *)
Theorem malformed_address_raises (self : t) (b : string) :
  length (basic_blocks1 self) = length (basic_blocks2 self) →
  size (edges1 self) = size (edges2 self) →
  b ∈ keys (basic_blocks2 self) →
  parse b = None →
  ∃ msg, is_structurally_equivalent self = Raise (ValueError msg).
Proof.
  intros Hlen Hsize Hb Hparse. unfold is_structurally_equivalent.
  rewrite !bool_decide_eq_true_2 by done. cbn [andb].
  destruct (traverse_raise (address2_align self) (keys (basic_blocks2 self))
              (λ e, ∃ msg, e = ValueError msg)) as (e & -> & msg & ->).
  - apply address2_align_raises.
  - exists b. eexists. split; [done|].
    unfold address2_align, int16. by rewrite Hparse.
  - by exists msg.
Qed.

Lemma malformed_address_raises_witness :
  ∃ msg,
    is_structurally_equivalent
      (__init__ app_little
         (Function.mk "0x1000" [("0x1000", sample_block "0x1000")]
            (Cfg.mk ∅) "" "")
         app_little
         (Function.mk "0x2000"
            [("F0x2000_0x3000", sample_block "F0x2000_0x3000")]
            (Cfg.mk ∅) "" ""))
    = Raise (ValueError msg).
Proof.
  apply (malformed_address_raises _ "F0x2000_0x3000");
    [reflexivity|reflexivity|left|reflexivity].
Defined.

(** X9: Aligning the address a block of A is mapped to gives the block address
    back: [address2_align] undoes the shift of [block_mapping]. *)
Theorem align_undoes_mapping (self : t) (d n : Z) :
  offset self = Ok d →
  address2_align self (hex (n + d)) = Ok (hex n).
Proof.
  intros Hoffset. unfold address2_align. rewrite int16_hex. simpl.
  rewrite Hoffset. simpl. do 2 f_equal. lia.
Qed.

Lemma align_undoes_mapping_witness :
  address2_align fra_moved (hex (4112 + 4096)) = Ok (hex 4112).
Proof. apply (align_undoes_mapping fra_moved 4096 4112). reflexivity. Defined.

Lemma shift_zero (s : string) : canonical s → shift 0 s = s.
Proof.
  intros [z ->]. unfold shift. rewrite address_value_hex. f_equal. lia.
Qed.

(** X10: A function compared with itself: with addresses as [hex] prints them
    the offset is 0, the test is true and every block is mapped to
    itself. *)
Theorem function_equivalent_to_itself (app1 app2 : AppAccess.t)
    (fn : Function.t) :
  let self := __init__ app1 fn app2 fn in
  canonical (Function.faddr fn) →
  addresses_wf self →
  offset self = Ok 0
  ∧ is_structurally_equivalent self = Ok true
  ∧ ∃ m self', block_mapping self = Ok (m, self')
      ∧ ∀ a, a ∈ keys (Function.blocks fn) → get m a = Some a.
Proof.
  intros self [z Hz] Hwf.
  assert (offset self = Ok 0) as Hoff.
  { unfold offset, faddr1, faddr2. simpl. rewrite Hz, int16_hex. simpl.
    f_equal. lia. }
  pose proof Hwf as (Hnd & Hcan & Hedges).
  assert (structurally_identical self 0) as Hid.
  { repeat split.
    - apply set_eq. intros x. rewrite elem_of_map. split.
      + intros (b & -> & Hb). rewrite shift_zero; [done|].
        apply elem_of_list_to_set in Hb.
        by apply (proj1 (Forall_forall _ _) Hcan).
      + intros Hx. exists x. split; [|done]. symmetry. apply shift_zero.
        apply elem_of_list_to_set in Hx.
        by apply (proj1 (Forall_forall _ _) Hcan).
    - apply set_eq. intros [x y]. rewrite elem_of_map. split.
      + intros ([b c] & [= -> ->] & Hb). destruct (Hedges _ Hb).
        unfold shift_edge. simpl. by rewrite !shift_zero.
      + intros Hx. exists (x, y). split; [|done]. destruct (Hedges _ Hx).
        unfold shift_edge. simpl. by rewrite !shift_zero. }
  assert (is_structurally_equivalent self = Ok true) as Htrue.
  { rewrite (is_structurally_equivalent_checks self 0 Hoff Hwf).
    apply (checks_iff_identical self 0 Hwf) in Hid as (? & ? & ? & ?).
    by rewrite !bool_decide_eq_true_2. }
  split; [done|]. split; [done|].
  unfold block_mapping. simpl. rewrite Htrue. simpl.
  destruct (block_mapping_loop_spec self 0 Hoff
              (keys (basic_blocks1 self)) []) as (m & Hm & Hin & _).
  { intros a Ha. destruct (proj1 (Forall_forall _ _) Hcan a Ha) as [n ->].
    exists n. apply int16_hex. }
  rewrite Hm. simpl. eexists _, _. split; [done|].
  intros a Ha. destruct (Hin a Ha) as (n & Hn & ->).
  destruct (proj1 (Forall_forall _ _) Hcan a Ha) as [n' ->].
  rewrite int16_hex in Hn. injection Hn as ->. do 2 f_equal. lia.
Qed.

Lemma fra_self_wf :
  addresses_wf (__init__ app_little fn_at_2000 app_little fn_at_2000).
Proof. exact fra_moved_wf. Qed.

Lemma function_equivalent_to_itself_witness :
  is_structurally_equivalent
    (__init__ app_little fn_at_2000 app_little fn_at_2000) = Ok true.
Proof.
  apply (function_equivalent_to_itself app_little app_little fn_at_2000).
  - apply canonicalb_spec. reflexivity.
  - exact fra_self_wf.
Defined.

(** X11: The block mapping is computed once: after an access that returned a
    non-empty mapping, every further access returns the same mapping and
    leaves the object as it is. *)
Theorem block_mapping_memoized (self self' : t) (m : dict string) :
  block_mapping self = Ok (m, self') →
  m ≠ [] →
  block_mapping self' = Ok (m, self').
Proof.
  unfold block_mapping. intros Hbm Hne.
  destruct (_blockmapping self) as [|kv rest] eqn:Hmemo; simpl in Hbm.
  - destruct (is_structurally_equivalent self) as [[]|]; simpl in Hbm;
      [|by injection Hbm as <- _|done].
    destruct (block_mapping_loop _ _ _) as [m'|]; simpl in Hbm; [|done].
    injection Hbm as -> <-. simpl.
    by destruct m.
  - injection Hbm as <- <-. by rewrite Hmemo.
Qed.

Lemma block_mapping_memoized_witness :
  let m := [("0x1000", "0x2000"); ("0x1010", "0x2010")] in
  let self' := mk app_little fn_at_1000 app_little fn_at_2000 m in
  block_mapping fra_moved = Ok (m, self')
  ∧ m ≠ []
  ∧ block_mapping self' = Ok (m, self').
Proof.
  intros m self'.
  assert (block_mapping fra_moved = Ok (m, self')) as Hfirst
    by (by vm_compute).
  split; [exact Hfirst|]. split; [discriminate|].
  exact (block_mapping_memoized fra_moved self' m Hfirst
           ltac:(discriminate)).
Defined.

End StructuralTest.

(** ** Binary pairs: the direct mapping and its memo *)

Section DirectMapping.
Import RelationalAnalysis.
Context `{CallgraphMatcher}.

(** The mapping of the equal-count branch. *)
Lemma function_mapping_direct (self : t) :
  _functionmapping self = [] →
  fncount1 self = fncount2 self →
  (function_mapping self).1
  = map_remaining (faddrs1 self)
      (pair_differences
         (zip (sorted_difference (faddrs1 self) (faddrs2 self))
              (sorted_difference (faddrs2 self) (faddrs1 self))) []).
Proof.
  intros Hmemo Hcount. unfold function_mapping. rewrite Hmemo. simpl.
  by rewrite bool_decide_eq_true_2.
Qed.

Lemma get_pair_differences_elem (ps : list (string * string))
    (r : dict string) (a b : string) :
  get (pair_differences ps r) a = Some b →
  (a, b) ∈ ps ∨ get r a = Some b.
Proof.
  revert r. induction ps as [|[x y] ps IH]; intros r; simpl; [by auto|].
  intros Hget. apply IH in Hget as [Hin|Hget]; [left; by right|].
  rewrite get_setitem in Hget. unfold str_eqb in Hget.
  case_bool_decide; [|by auto]. injection Hget as <-. subst. left. left.
Qed.

Lemma get_pair_differences_keys (ps : list (string * string))
    (r : dict string) (a : string) :
  a ∈ ps.*1 → ∃ b, get (pair_differences ps r) a = Some b.
Proof.
  revert r. induction ps as [|[x y] ps IH]; intros r Ha; simpl in *.
  - by apply elem_of_nil in Ha.
  - destruct (decide (a ∈ ps.*1)) as [Hin|Hin]; [by apply IH|].
    apply elem_of_cons in Ha as [->|Ha]; [|done].
    exists y. rewrite get_pair_differences, get_setitem by done.
    unfold str_eqb. by rewrite bool_decide_eq_true_2.
Qed.

Lemma sorted_difference_length (l1 l2 : list string) :
  NoDup l1 → NoDup l2 → length l1 = length l2 →
  length (sorted_difference l1 l2) = length (sorted_difference l2 l1).
Proof.
  intros Hn1 Hn2 Hlen. unfold sorted_difference. rewrite !sorted_length.
  change (size (list_to_set l1 ∖ list_to_set l2 : gset string)
          = size (list_to_set l2 ∖ list_to_set l1 : gset string)).
  rewrite (size_difference_alt (list_to_set l1 : gset string)
             (list_to_set l2)).
  rewrite (size_difference_alt (list_to_set l2 : gset string)
             (list_to_set l1)).
  rewrite (size_list_to_set (C:=gset string) l1 Hn1).
  rewrite (size_list_to_set (C:=gset string) l2 Hn2).
  rewrite Hlen. f_equal. f_equal. apply set_eq. intros x.
  rewrite !elem_of_intersection. tauto.
Qed.

Lemma zip_fst_all (l1 l2 : list string) (a : string) :
  length l1 = length l2 → a ∈ l1 → a ∈ (zip l1 l2).*1.
Proof.
  intros Hlen. by rewrite fst_zip by lia.
Qed.

Lemma zip_snd_elem (l1 l2 : list string) (a b : string) :
  (a, b) ∈ zip l1 l2 → a ∈ l1 ∧ b ∈ l2.
Proof.
  intros Hin. split.
  - eapply elem_of_zip_l, Hin.
  - eapply elem_of_zip_r, Hin.
Qed.

(** X12: The direct mapping of two duplicate-free address lists of equal length
    is defined exactly on the functions of A, sends each of them to a
    function of B, and sends every address the two lists share to
    itself. *)
Theorem direct_mapping_into_patched (self : t) :
  _functionmapping self = [] →
  fncount1 self = fncount2 self →
  NoDup (faddrs1 self) → NoDup (faddrs2 self) →
  let m := (function_mapping self).1 in
  (∀ a, a ∈ faddrs1 self ↔ ∃ b, get m a = Some b)
  ∧ (∀ a b, get m a = Some b → b ∈ faddrs2 self)
  ∧ (∀ a, a ∈ faddrs1 self → a ∈ faddrs2 self → get m a = Some a).
Proof.
  intros Hmemo Hcount Hn1 Hn2 m. unfold m.
  rewrite (function_mapping_direct self Hmemo Hcount).
  set (d1 := sorted_difference (faddrs1 self) (faddrs2 self)).
  set (d2 := sorted_difference (faddrs2 self) (faddrs1 self)).
  assert (length d1 = length d2) as Hd
    by (by apply sorted_difference_length).
  split; [|split].
  - intros a. rewrite get_map_remaining. split.
    + intros Ha. destruct (get (pair_differences (zip d1 d2) []) a);
        [by eauto|]. rewrite bool_decide_eq_true_2 by done. by eauto.
    + intros [b Hb].
      destruct (get (pair_differences (zip d1 d2) []) a) as [v|] eqn:Hp.
      * apply get_pair_differences_elem in Hp as [Hin|?]; [|done].
        apply zip_snd_elem in Hin as [Hin _].
        by apply sorted_difference_elem in Hin as [? _].
      * by case_bool_decide.
  - intros a b. rewrite get_map_remaining.
    destruct (get (pair_differences (zip d1 d2) []) a) as [v|] eqn:Hp.
    + intros [= ->].
      apply get_pair_differences_elem in Hp as [Hin|?]; [|done].
      apply zip_snd_elem in Hin as [_ Hin].
      by apply sorted_difference_elem in Hin as [? _].
    + case_bool_decide as Ha; [|done]. intros [= <-].
      destruct (decide (a ∈ faddrs2 self)) as [|Hn]; [done|].
      exfalso.
      assert (a ∈ (zip d1 d2).*1) as Hz.
      { apply zip_fst_all; [done|]. by apply sorted_difference_elem. }
      destruct (get_pair_differences_keys _ [] _ Hz) as [b Hb]. congruence.
  - intros a Ha1 Ha2. rewrite get_map_remaining, get_pair_differences.
    + simpl. by rewrite bool_decide_eq_true_2.
    + intros Hin%zip_fst_elem. by apply sorted_difference_elem in Hin as [_ ?].
Qed.

(** X13: When exactly one function of A is missing from B and one function of B
    is missing from A, the two are paired, and every other function of A is
    mapped to itself. *)
Theorem one_function_replaced (self : t) (a b : string) :
  _functionmapping self = [] →
  fncount1 self = fncount2 self →
  sorted_difference (faddrs1 self) (faddrs2 self) = [a] →
  sorted_difference (faddrs2 self) (faddrs1 self) = [b] →
  let m := (function_mapping self).1 in
  get m a = Some b
  ∧ ∀ c, c ∈ faddrs1 self → c ≠ a → get m c = Some c.
Proof.
  intros Hmemo Hcount Hd1 Hd2 m. unfold m.
  rewrite (function_mapping_direct self Hmemo Hcount), Hd1, Hd2.
  simpl. split.
  - rewrite get_map_remaining. simpl. unfold str_eqb.
    by rewrite bool_decide_eq_true_2.
  - intros c Hc Hca. rewrite get_map_remaining. simpl. unfold str_eqb.
    rewrite bool_decide_eq_false_2 by done.
    by rewrite bool_decide_eq_true_2.
Qed.

Lemma function_mapping_again (self : t) (m : dict string) (self' : t) :
  function_mapping self = (m, self') → function_mapping self' = (m, self').
Proof.
  intros Hfm.
  unfold function_mapping, fncount1, fncount2, faddrs1, faddrs2,
    usermapping in Hfm.
  unfold function_mapping, fncount1, fncount2, faddrs1, faddrs2,
    usermapping.
  destruct (bool_decide (0 < length (_functionmapping self))%nat) eqn:Hmemo.
  - injection Hfm as <- <-. by rewrite Hmemo.
  - destruct (bool_decide (length (_faddrs1 self) = length (_faddrs2 self)))
      eqn:Hcount; injection Hfm as <- <-; cbn -[bool_decide];
      rewrite Hcount; clear Hmemo Hcount; by case_bool_decide.
Qed.

(** X14: The function mapping is stable: a further access returns the same
    mapping and leaves the object as the first access left it, whichever
    strategy computed it. *)
Theorem function_mapping_stable (self : t) :
  function_mapping (function_mapping self).2 = function_mapping self.
Proof.
  destruct (function_mapping self) as [m self'] eqn:Hfm. cbn [snd].
  exact (function_mapping_again self m self' Hfm).
Qed.

End DirectMapping.

Lemma direct_mapping_into_patched_witness :
  let m := (@RelationalAnalysis.function_mapping sample_matcher ra_replaced).1
  in
  (∀ a, a ∈ RelationalAnalysis.faddrs1 ra_replaced ↔ ∃ b, get m a = Some b)
  ∧ (∀ a b, get m a = Some b → b ∈ RelationalAnalysis.faddrs2 ra_replaced)
  ∧ (∀ a, a ∈ RelationalAnalysis.faddrs1 ra_replaced →
          a ∈ RelationalAnalysis.faddrs2 ra_replaced → get m a = Some a).
Proof.
  apply (@direct_mapping_into_patched sample_matcher ra_replaced);
    [reflexivity|reflexivity|..];
    apply (bool_decide_unpack _); by vm_compute.
Defined.

Lemma one_function_replaced_witness :
  let m := (@RelationalAnalysis.function_mapping sample_matcher ra_replaced).1
  in
  get m "0x2000" = Some "0x3000"
  ∧ ∀ c, c ∈ RelationalAnalysis.faddrs1 ra_replaced → c ≠ "0x2000" →
         get m c = Some c.
Proof.
  apply (@one_function_replaced sample_matcher ra_replaced "0x2000" "0x3000");
    by vm_compute.
Defined.


(** ** Binary pairs: the changed functions without an analysis *)

Section ChangedFunctions.
Import RelationalAnalysis.
Context `{CallgraphMatcher}.

(** X17: Without an analysed function the second loop reads a variable
    that was never bound: [functions_changed] raises [UnboundLocalError] as
    soon as the md5 table of the original binary is non-empty. *)
Theorem no_analysis_unbound_variable (self self' : t) :
  function_analyses self = Ok ([], self') →
  md5s1 self ≠ [] →
  functions_changed self = Raise (UnboundLocalError "faddr").
Proof.
  intros Hfas Hne. unfold functions_changed. rewrite Hfas. simpl.
  destruct (function_analyses_fields _ _ _ Hfas) as (_ & Ha1 & _).
  unfold md5s1 in *. rewrite Ha1.
  by destruct (AppAccess.function_md5s (app1 self)) as [|[? ?] ?].
Qed.

End ChangedFunctions.

Lemma no_analysis_unbound_variable_witness :
  @RelationalAnalysis.functions_changed sample_matcher ra_unmatched
  = Raise (UnboundLocalError "faddr").
Proof.
  eapply (@no_analysis_unbound_variable sample_matcher ra_unmatched).
  - by vm_compute.
  - discriminate.
Defined.

(** ** Binary pairs: added functions and the lookup of an analysis *)

Section AddedFunctions.
Import RelationalAnalysis.
Context `{CallgraphMatcher}.

Lemma insert_sorted_perm (x : string) (l : list string) :
  insert_sorted x l ≡ₚ x :: l.
Proof.
  induction l as [|y l IH]; simpl; [done|].
  destruct (String.leb x y); [done|].
  rewrite IH. apply perm_swap.
Qed.

Lemma sorted_perm (l : list string) : sorted l ≡ₚ l.
Proof.
  induction l as [|x l IH]; simpl; [done|].
  by rewrite insert_sorted_perm, IH.
Qed.

Lemma sorted_difference_NoDup (l1 l2 : list string) :
  NoDup (sorted_difference l1 l2).
Proof.
  unfold sorted_difference. rewrite sorted_perm. apply NoDup_elements.
Qed.

Lemma get_pair_differences_pair (ps : list (string * string))
    (r : dict string) (a b : string) :
  NoDup ps.*1 → (a, b) ∈ ps → get (pair_differences ps r) a = Some b.
Proof.
  revert r. induction ps as [|[x y] ps IH]; intros r Hnd Hin; simpl in *.
  - by apply elem_of_nil in Hin.
  - apply NoDup_cons in Hnd as [Hx Hnd].
    apply elem_of_cons in Hin as [Heq|Hin]; [|by apply IH].
    injection Heq as -> ->.
    rewrite get_pair_differences, get_setitem by done.
    unfold str_eqb. by rewrite bool_decide_eq_true_2.
Qed.

Lemma zip_snd_all (l1 l2 : list string) (b : string) :
  length l1 = length l2 → b ∈ l2 → ∃ a, (a, b) ∈ zip l1 l2.
Proof.
  revert l2. induction l1 as [|x l1 IH]; intros [|y l2] Hlen Hb;
    simpl in *; try done.
  - by apply elem_of_nil in Hb.
  - apply elem_of_cons in Hb as [->|Hb].
    + exists x. left.
    + destruct (IH l2) as [a Ha]; [lia|done|]. exists a. by right.
Qed.

Lemma get_values (m : dict string) (a b : string) :
  get m a = Some b → b ∈ values m.
Proof.
  unfold values. induction m as [|[k v] m IH]; simpl; [done|].
  unfold str_eqb. case_bool_decide.
  - intros [= ->]. left.
  - intros Hget. right. by apply IH.
Qed.

(** Every function of B is the image of a function of A under the direct
    mapping. *)
Lemma direct_mapping_onto (self : t) (b : string) :
  _functionmapping self = [] →
  fncount1 self = fncount2 self →
  NoDup (faddrs1 self) → NoDup (faddrs2 self) →
  b ∈ faddrs2 self → b ∈ values (function_mapping self).1.
Proof.
  intros Hmemo Hcount Hn1 Hn2 Hb.
  rewrite (function_mapping_direct self Hmemo Hcount).
  set (d1 := sorted_difference (faddrs1 self) (faddrs2 self)).
  set (d2 := sorted_difference (faddrs2 self) (faddrs1 self)).
  assert (length d1 = length d2) as Hd
    by (by apply sorted_difference_length).
  destruct (decide (b ∈ faddrs1 self)) as [Hb1|Hb1].
  - apply (get_values _ b). rewrite get_map_remaining, get_pair_differences.
    + simpl. by rewrite bool_decide_eq_true_2.
    + intros Hin%zip_fst_elem.
      by apply sorted_difference_elem in Hin as [_ ?].
  - assert (b ∈ d2) as Hb2 by (by apply sorted_difference_elem).
    destruct (zip_snd_all d1 d2 b Hd Hb2) as [a Ha].
    apply (get_values _ a). rewrite get_map_remaining.
    rewrite (get_pair_differences_pair _ [] a b); [done| |done].
    rewrite fst_zip by lia. apply sorted_difference_NoDup.
Qed.

(** The loop of [functions_added] sees one mapping throughout. *)
Lemma functions_added_loop_spec (fs : list string) (self : t)
    (result : list string) :
  (functions_added_loop fs self result).1
  = (result
     ++ filter (λ b, b ∉ values (function_mapping self).1) fs)%list.
Proof.
  revert self result. induction fs as [|b fs IH]; intros self result; simpl.
  - by rewrite app_nil_r.
  - destruct (function_mapping self) as [m s1] eqn:Hfm.
    pose proof (function_mapping_again self m s1 Hfm) as Hst.
    unfold str_elem. rewrite filter_cons. simpl.
    destruct (decide (b ∈ values m)) as [Hin|Hin].
    + rewrite (bool_decide_eq_true_2 _ Hin). simpl.
      rewrite IH, Hst. simpl. by rewrite decide_False by auto.
    + rewrite (bool_decide_eq_false_2 _ Hin). simpl.
      rewrite IH, Hst. simpl. rewrite decide_True by done.
      by rewrite <- app_assoc.
Qed.

(** X18: With equally many, distinct function addresses on both sides,
    [functions_added] reports nothing: a function of B that A does not have
    is paired with a function of A that B does not have. *)
Theorem equal_counts_nothing_added (self : t) :
  _functionmapping self = [] →
  fncount1 self = fncount2 self →
  NoDup (faddrs1 self) → NoDup (faddrs2 self) →
  (functions_added self).1 = [].
Proof.
  intros Hmemo Hcount Hn1 Hn2. unfold functions_added.
  rewrite functions_added_loop_spec. simpl.
  assert (∀ b, b ∈ sorted (faddrs2 self)
               → b ∈ values (function_mapping self).1) as Hall.
  { intros b Hb. rewrite sorted_elem in Hb.
    exact (direct_mapping_onto self b Hmemo Hcount Hn1 Hn2 Hb). }
  induction (sorted (faddrs2 self)) as [|b l IH]; [done|].
  rewrite filter_cons, decide_False.
  - apply IH. intros c Hc. apply Hall. by right.
  - intros Hnot. apply Hnot, Hall. left.
Qed.

(** X19: An address reported as added is a function of B that is no value of the
    function mapping, and every such function is reported. *)
Theorem functions_added_spec (self : t) (b : string) :
  b ∈ (functions_added self).1
  ↔ b ∈ faddrs2 self ∧ b ∉ values (function_mapping self).1.
Proof.
  unfold functions_added. rewrite functions_added_loop_spec. simpl.
  rewrite list_elem_of_filter, sorted_elem. tauto.
Qed.

(** X20: On an object without cached analyses [function_analysis] never
    returns an analysis: when [function_analyses] can be built it is empty
    and the lookup raises [CHBError], for every address; otherwise the
    lookup raises what [function_analyses] raised. *)
Theorem fresh_function_analysis_raises (self : t) (faddr : string) :
  _functionanalyses self = [] →
  (∀ fas self', function_analyses self = Ok (fas, self') →
     function_analysis self faddr
     = Raise (CHBError "Address not found in function relational analyses"))
  ∧ (∀ e, function_analyses self = Raise e →
          function_analysis self faddr = Raise e).
Proof.
  intros Hfresh. unfold function_analysis. split.
  - intros fas self' Hfas. rewrite Hfas. simpl.
    destruct (function_analyses_fields _ _ _ Hfas) as (-> & _ & _).
    by rewrite Hfresh.
  - intros e Hraise. by rewrite Hraise.
Qed.

End AddedFunctions.

Lemma equal_counts_nothing_added_witness :
  "0x3000" ∈ RelationalAnalysis.faddrs2 ra_replaced
  ∧ ("0x3000" ∉ RelationalAnalysis.faddrs1 ra_replaced)
  ∧ fst (@RelationalAnalysis.functions_added sample_matcher ra_replaced) = [].
Proof.
  split; [apply (bool_decide_unpack _); by vm_compute|]. split.
  - apply (bool_decide_unpack _). by vm_compute.
  - apply (@equal_counts_nothing_added sample_matcher ra_replaced);
      [reflexivity|reflexivity|..]; apply (bool_decide_unpack _);
      by vm_compute.
Defined.

Lemma fresh_function_analysis_raises_witness :
  @RelationalAnalysis.function_analysis sample_matcher ra_unmatched "0x1000"
  = Raise (CHBError "Address not found in function relational analyses")
  ∧ ∃ msg,
      @RelationalAnalysis.function_analysis sample_matcher ra_restricted
        "0x1000"
      = Raise (TypeError msg).
Proof.
  split.
  - eapply (proj1 (@fresh_function_analysis_raises sample_matcher
                     ra_unmatched "0x1000" eq_refl)).
    by vm_compute.
  - eexists.
    eapply (proj2 (@fresh_function_analysis_raises sample_matcher
                     ra_restricted "0x1000" eq_refl)).
    by vm_compute.
Defined.

(** ** Lowering of register values: what is always returned *)

Section LoweringTotal.
Import XXprUtil.
Context {ASTTyp : Type} (astree : ASTInterface ASTTyp).

(** X21: Lowering a list of initial register values never fails: the variable
    [formal] is bound whenever it is read. The result is either one register
    lvalue per element, or, for a list of argument values, the single lvalue
    of the formal of the last element. *)
Theorem register_list_lowering_total
    (vconstvars : list VInitialRegisterValue) :
  vinitregister_value_list_to_ast_lvals vconstvars astree
  = Ok (register_lvals vconstvars)
  ∨ ∃ v, last vconstvars = Some v
         ∧ Forall (λ v, is_argument_value v = true) vconstvars
         ∧ vinitregister_value_list_to_ast_lvals vconstvars astree
           = Ok [mk_formal_lval (formal_of astree v)].
Proof.
  pose proof (formal_indices_spec astree vconstvars ∅ ∅ None) as Hspec.
  unfold vinitregister_value_list_to_ast_lvals.
  destruct (forallb is_argument_value vconstvars) eqn:Hargs; [|by left].
  destruct (formal_indices astree vconstvars ∅ ∅ None) as [[A L] f].
  simpl in Hspec. destruct Hspec as (HA & _ & Hf).
  case_bool_decide as Hone; [|by left].
  destruct (last vconstvars) as [v|] eqn:Hlast.
  - subst f. case_bool_decide; [|by left].
    right. exists v. split; [done|]. split; [|done].
    by apply forallb_argument_values.
  - apply last_None in Hlast. subst vconstvars.
    assert (A = ∅) as ->.
    { apply set_eq. intros x. rewrite HA. split.
      - intros [?|(v & Hv & _)]; [done|]. by apply elem_of_nil in Hv.
      - intros Hx. by left. }
    by rewrite size_empty in Hone.
Qed.

(** X22: A single initial register value always lowers to at least one
    lvalue. *)
Theorem register_value_lowering_nonempty (vconstvar : VInitialRegisterValue) :
  vinitregister_value_to_ast_lvals vconstvar astree ≠ [].
Proof.
  unfold vinitregister_value_to_ast_lvals.
  destruct (is_argument_value vconstvar).
  - case_bool_decide as Hlen; [|done].
    intros Hnil. rewrite Hnil in Hlen. simpl in Hlen. lia.
  - by destruct (is_stack_pointer vconstvar).
Qed.

End LoweringTotal.

(** ** Simulation steps: the order of the operands *)

Section OperandOrder.
Import Sim.
Context `{SimOps} {S Lhs : Type} `{SimState S Lhs}.

(** X24: Addition is not symmetric in its operands: a defined literal in
    [rs] and an address in [rt] give the address moved by the literal; an
    address in [rs] and a literal in [rt] give the undefined value. *)
Theorem addu_operand_order (self : MIPSOpcode) (iaddr : string)
    (simstate : S) :
  let src1val := get_rhs simstate iaddr (src1_operand self) in
  let src2val := get_rhs simstate iaddr (src2_operand self) in
  (is_literal src1val = true → is_defined src1val = true →
   is_address src2val = true →
   MIPSAddUnsigned.simulate self iaddr simstate
   = Ok (assign_and_advance increment_program_counter self iaddr simstate
           src1val src2val (add_offset src2val (literal_value src1val))))
  ∧ (is_address src1val = true → is_literal src2val = true →
     MIPSAddUnsigned.simulate self iaddr simstate
     = Ok (assign_and_advance increment_program_counter self iaddr simstate
             src1val src2val simUndefinedDW)).
Proof.
  intros src1val src2val. unfold MIPSAddUnsigned.simulate.
  fold src1val src2val. split.
  - intros Hl Hd Ha. rewrite Hl, Hd, Ha.
    by destruct src1val, src2val.
  - intros Ha Hl. by destruct src1val, src2val.
Qed.

End OperandOrder.

Lemma addu_operand_order_witness :
  @MIPSAddUnsigned.simulate sample_simops _ _ sample_simstate addu_a0_a1_a2
    "0x400100" state_address_in_rt
  = Ok (@Sim.assign_and_advance sample_simops _ _ sample_simstate
          (@Sim.increment_program_counter _ _ sample_simstate)
          addu_a0_a1_a2 "0x400100"
          state_address_in_rt (Sim.mk_simvalue 4) (Sim.SimStackAddress 16)
          (Sim.SimStackAddress 20))
  ∧ @MIPSAddUnsigned.simulate sample_simops _ _ sample_simstate
      addu_a0_a1_a2 "0x400100" state_address_in_rs
    = Ok (@Sim.assign_and_advance sample_simops _ _ sample_simstate
            (@Sim.increment_program_counter _ _ sample_simstate)
            addu_a0_a1_a2 "0x400100"
            state_address_in_rs (Sim.SimStackAddress 16) (Sim.mk_simvalue 4)
            Sim.simUndefinedDW).
Proof.
  split.
  - apply (proj1 (@addu_operand_order sample_simops _ _ sample_simstate
                    addu_a0_a1_a2 "0x400100" state_address_in_rt));
      by vm_compute.
  - apply (proj2 (@addu_operand_order sample_simops _ _ sample_simstate
                    addu_a0_a1_a2 "0x400100" state_address_in_rs));
      by vm_compute.
Defined.
